(** * web-keyboard: the connection hub, its pumps, the key simulator and the
    browser-side reconnection logic, embedded shallowly.

    Sources: server/websocket.go, input/simulator.go, static/script.js. *)

From Stdlib Require Import Arith Lia Bool Ascii String.
From stdpp Require Import base gmap sets list strings pretty.

Local Open Scope string_scope.

(** ** Go primitives used by the server *)

(** [[]byte] payloads travelling through the channels. *)
Abbreviation payload := string (only parsing).

(** Result of running a piece of Go code to its next quiescent point:
    it finishes, it stays blocked on a channel operation, or it panics. *)
Inductive outcome (A : Type) : Type :=
| Done (a : A)
| Blocks
| Panics.
Arguments Done {A} a.
Arguments Blocks {A}.
Arguments Panics {A}.

Definition obind {A B} (x : outcome A) (f : A → outcome B) : outcome B :=
  match x with
  | Done a => f a
  | Blocks => Blocks
  | Panics => Panics
  end.

Notation "x ←! e ; k" := (obind e (λ x, k))
  (at level 20, e at level 100, k at level 200, right associativity,
   format "x  ←!  e ;  '/' k").

Module Chan.

(** A buffered channel [make(chan []byte, cap)]. *)
Record chan : Type := mk {
  buf : list string;
  cap : nat;
  closed : bool
}.

Definition make (n : nat) : chan := mk [] n false.

Definition has_room (ch : chan) : bool := (length (buf ch) <? cap ch)%nat.

Definition push (m : string) (ch : chan) : chan :=
  mk (buf ch ++ [m]) (cap ch) (closed ch).

(** [ch <- m]: panics on a closed channel, blocks while the buffer is
    full. *)
Definition send (m : string) (ch : chan) : outcome chan :=
  if closed ch then Panics
  else if has_room ch then Done (push m ch)
  else Blocks.

(** [select { case ch <- m: ... default: ... }]: [Some] is the send
    case, [None] the default case. *)
Definition try_send (m : string) (ch : chan) : outcome (option chan) :=
  if closed ch then Panics
  else if has_room ch then Done (Some (push m ch))
  else Done None.

(** [close(ch)]: panics when the channel is closed already. *)
Definition close (ch : chan) : outcome chan :=
  if closed ch then Panics else Done (mk (buf ch) (cap ch) true).

(** [m, ok := <-ch]. *)
Inductive received : Type :=
| RecvMsg (m : string) (ch' : chan)
| RecvClosed
| RecvBlocks.

Definition recv (ch : chan) : received :=
  match buf ch with
  | m :: rest => RecvMsg m (mk rest (cap ch) (closed ch))
  | [] => if closed ch then RecvClosed else RecvBlocks
  end.

End Chan.

(** The gorilla/websocket connection, as far as the server uses it: whether
    [Close] was called on it, and the frames written to it. *)
Inductive frame : Type :=
| TextMessage (m : string)
| CloseMessage
| PingMessage.

Record wsConn : Type := mkConn {
  conn_closed : bool;
  written : list frame
}.

Definition conn_Close (c : wsConn) : wsConn := mkConn true (written c).

(** [WriteMessage]: fails on a closed connection; on an open one the network
    decides ([net_ok]).  Returns [true] when it returned a nil error. *)
Definition conn_WriteMessage (net_ok : bool) (f : frame) (c : wsConn)
  : bool * wsConn :=
  if conn_closed c then (false, c)
  else if net_ok then (true, mkConn false (written c ++ [f]))
  else (false, c).

(** [type Connection struct { conn *websocket.Conn; send chan []byte }] *)
Record Connection : Type := mkConnection {
  conn : wsConn;
  send : Chan.chan
}.

Definition with_send (ch : Chan.chan) (o : Connection) : Connection :=
  mkConnection (conn o) ch.
Definition with_conn (w : wsConn) (o : Connection) : Connection :=
  mkConnection w (send o).

(** [type KeyMessage struct { Key string; Type string }] *)
Record KeyMessage : Type := mkKeyMessage {
  Key : string;
  Type_ : string
}.

(** encoding/json, as the server calls it: [json.Marshal] of a
    [map[string]string] (which cannot fail) and [json.Unmarshal] into a
    [KeyMessage] ([None] when it returns an error). *)
Class JSON : Type := {
  json_Marshal : gmap string string → string;
  json_Unmarshal : string → option KeyMessage
}.

(** [*Connection]: records are compared and stored by address. *)
Abbreviation ptr := nat (only parsing).

(** ** The hub (server/websocket.go) *)

(** What the hub does to the records, in program order. *)
Inductive effect : Type :=
| Sent (c : ptr) (m : string)
| Slept (ms : nat)
| ConnClosed (c : ptr)
| ChanClosed (c : ptr).

(** [WebSocketServer]: the [connections] map (all its values are [true], so
    its key set is kept), together with the store of [Connection] objects the
    keys point to and the effects performed so far.  The [register],
    [unregister] and [broadcast] channels are the events of [Run]; the mutex
    is held for the whole of each case and is not modelled; the calls of
    [log.Printf] in [Run] touch no state and are left out. *)
Record WebSocketServer : Type := mkServer {
  connections : gset ptr;
  heap : gmap ptr Connection;
  trace : list effect
}.

Definition NewWebSocketServer : WebSocketServer := mkServer ∅ ∅ [].

(** [&Connection{conn: conn, send: make(chan []byte, 256)}] *)
Definition newConnection : Connection :=
  mkConnection (mkConn false []) (Chan.make 256).

Definition deref (c : ptr) (s : WebSocketServer) : outcome Connection :=
  match heap s !! c with
  | Some o => Done o
  | None => Panics
  end.

(** [for conn := range s.connections { return conn }; return nil]: Go leaves
    the iteration order of a map unspecified, so which member comes first is
    an input ([seed]); every member is first for some seed. *)
Definition getExistingConnection (seed : nat) (s : WebSocketServer)
  : option ptr :=
  elements (connections s) !! (seed mod size (connections s))%nat.

(** [for connection := range s.connections { body }], where [body] deletes
    at most the entry it is visiting: every key is visited once. *)
Fixpoint range_over (body : ptr → WebSocketServer → outcome WebSocketServer)
    (keys : list ptr) (s : WebSocketServer) : outcome WebSocketServer :=
  match keys with
  | [] => Done s
  | c :: rest => s' ←! body c s; range_over body rest s'
  end.

Section hub.
Context `{JSON}.

Definition closeMsg : string :=
  json_Marshal {[ "status" := "disconnected";
                  "reason" := "Another device connected" ]}.

Definition welcomeMsg : string :=
  json_Marshal {[ "status" := "connected" ]}.

(** The body of [if existingConn != nil { ... }] in the register case. *)
Definition notify_and_close (existingConn : ptr) (s : WebSocketServer)
  : outcome WebSocketServer :=
  o ←! deref existingConn s;
  r ←! Chan.try_send closeMsg (send o);
  let o1 := match r with
            | Some ch => with_send ch o
            | None => o
            end in
  let fx := match r with
            | Some _ => [Sent existingConn closeMsg; Slept 100]
            | None => []
            end in
  Done (mkServer (connections s)
          (<[existingConn := with_conn (conn_Close (conn o1)) o1]> (heap s))
          (trace s ++ fx ++ [ConnClosed existingConn])).

(** [case connection := <-s.register] *)
Definition register (connection : ptr) (seed : nat) (s : WebSocketServer)
  : outcome WebSocketServer :=
  s1 ←! (if (1 <=? size (connections s))%nat then
            match getExistingConnection seed s with
            | Some existingConn => notify_and_close existingConn s
            | None => Done s
            end
          else Done s);
  let s2 := mkServer ({[connection]} ∪ connections s1) (heap s1) (trace s1) in
  o ←! deref connection s2;
  ch ←! Chan.send welcomeMsg (send o);
  Done (mkServer (connections s2)
          (<[connection := with_send ch o]> (heap s2))
          (trace s2 ++ [Sent connection welcomeMsg])).

(** [case connection := <-s.unregister] *)
Definition unregister (connection : ptr) (s : WebSocketServer)
  : outcome WebSocketServer :=
  if decide (connection ∈ connections s) then
    o ←! deref connection s;
    ch ←! Chan.close (send o);
    Done (mkServer (connections s ∖ {[connection]})
            (<[connection := with_send ch o]> (heap s))
            (trace s ++ [ChanClosed connection]))
  else Done s.

(** The body of the loop of [case message := <-s.broadcast]. *)
Definition broadcast_one (message : string) (connection : ptr)
    (s : WebSocketServer) : outcome WebSocketServer :=
  o ←! deref connection s;
  r ←! Chan.try_send message (send o);
  match r with
  | Some ch =>
      Done (mkServer (connections s)
              (<[connection := with_send ch o]> (heap s))
              (trace s ++ [Sent connection message]))
  | None =>
      ch ←! Chan.close (send o);
      Done (mkServer (connections s ∖ {[connection]})
              (<[connection := with_send ch o]> (heap s))
              (trace s ++ [ChanClosed connection]))
  end.

Definition broadcast (message : string) (s : WebSocketServer)
  : outcome WebSocketServer :=
  range_over (broadcast_one message) (elements (connections s)) s.

Inductive event : Type :=
| EvRegister (connection : ptr) (seed : nat)
| EvUnregister (connection : ptr)
| EvBroadcast (message : string).

(** One iteration of the [for { select { ... } }] of [Run]. *)
Definition Run_step (ev : event) (s : WebSocketServer)
  : outcome WebSocketServer :=
  match ev with
  | EvRegister connection seed => register connection seed s
  | EvUnregister connection => unregister connection s
  | EvBroadcast message => broadcast message s
  end.

(** [Run] on the events that arrive, in their order of arrival. *)
Fixpoint Run (evs : list event) (s : WebSocketServer)
  : outcome WebSocketServer :=
  match evs with
  | [] => Done s
  | ev :: rest => s' ←! Run_step ev s; Run rest s'
  end.

(** [handleWebSocket] after a successful upgrade: a new record is allocated
    and submitted on the [register] channel. *)
Definition handleWebSocket (seed : nat) (s : WebSocketServer)
  : outcome WebSocketServer :=
  let connection := fresh (dom (heap s)) in
  register connection seed
    (mkServer (connections s) (<[connection := newConnection]> (heap s))
       (trace s)).

End hub.

(** The body of the loop of [Shutdown]. *)
Definition shutdown_one (connection : ptr) (s : WebSocketServer)
  : outcome WebSocketServer :=
  o ←! deref connection s;
  ch ←! Chan.close (send o);
  Done (mkServer (connections s ∖ {[connection]})
          (<[connection := mkConnection (conn_Close (conn o)) ch]> (heap s))
          (trace s ++ [ChanClosed connection; ConnClosed connection])).

Definition Shutdown (s : WebSocketServer) : outcome WebSocketServer :=
  range_over shutdown_one (elements (connections s)) s.

(** Every member of the map is an allocated record whose [send] channel is
    open. *)
Definition member_ok (s : WebSocketServer) (c : ptr) : bool :=
  match heap s !! c with
  | Some o => negb (Chan.closed (send o))
  | None => false
  end.

Definition hub_wf (s : WebSocketServer) : Prop :=
  ∀ c, c ∈ connections s → member_ok s c = true.

Definition hub_wfb (s : WebSocketServer) : bool :=
  forallb (member_ok s) (elements (connections s)).

(** Whether the transport of record [c] has not been closed. *)
Definition is_live (s : WebSocketServer) (c : ptr) : bool :=
  match heap s !! c with
  | Some o => negb (conn_closed (conn o))
  | None => false
  end.


(** A codec for running the model on the frames and control payloads of
    this protocol.  It agrees with encoding/json on them: control payloads
    have keys among error, reason and status, which Go writes in sorted
    order, and an inbound frame is what the page sends with
    [JSON.stringify].  Strings that would need escaping are not handled. *)
Definition dq : string := String "034"%char EmptyString.

Definition render_field (k : string) (v : option string) : list string :=
  match v with
  | Some x => [dq ++ k ++ dq ++ ":" ++ dq ++ x ++ dq]
  | None => []
  end.

Fixpoint join_comma (l : list string) : string :=
  match l with
  | [] => EmptyString
  | [x] => x
  | x :: rest => x ++ "," ++ join_comma rest
  end.

Definition codec_Marshal (m : gmap string string) : string :=
  "{" ++ join_comma (render_field "error" (m !! "error")
                     ++ render_field "reason" (m !! "reason")
                     ++ render_field "status" (m !! "status")) ++ "}".

Fixpoint strip_prefix (p s : string) : option string :=
  match p with
  | EmptyString => Some s
  | String a p' =>
      match s with
      | String b s' => if Ascii.eqb a b then strip_prefix p' s' else None
      | EmptyString => None
      end
  end.

(** The characters up to the next double quote, and what follows it. *)
Fixpoint until_quote (s : string) : option (string * string) :=
  match s with
  | EmptyString => None
  | String a s' =>
      if Ascii.eqb a "034"%char then Some (EmptyString, s')
      else if Ascii.eqb a "\"%char then None
      else match until_quote s' with
           | Some (w, rest) => Some (String a w, rest)
           | None => None
           end
  end.

Fixpoint all_digits (s : string) : bool :=
  match s with
  | EmptyString => true
  | String a s' =>
      (48 <=? nat_of_ascii a)%nat && (nat_of_ascii a <=? 57)%nat
      && all_digits s'
  end.

Definition codec_tail (s : string) : bool :=
  if String.eqb s "}" then true
  else match strip_prefix ("," ++ dq ++ "timestamp" ++ dq ++ ":") s with
       | Some r =>
           match String.length r with
           | S (S _) =>
               all_digits (String.substring 0 (String.length r - 1) r)
               && String.eqb (String.substring (String.length r - 1) 1 r) "}"
           | _ => false
           end
       | None => false
       end.

Definition codec_Unmarshal (p : string) : option KeyMessage :=
  match strip_prefix ("{" ++ dq ++ "key" ++ dq ++ ":" ++ dq) p with
  | Some r1 =>
      match until_quote r1 with
      | Some (k, r2) =>
          match strip_prefix ("," ++ dq ++ "type" ++ dq ++ ":" ++ dq) r2 with
          | Some r3 =>
              match until_quote r3 with
              | Some (t, r4) =>
                  if codec_tail r4 then Some (mkKeyMessage k t) else None
              | None => None
              end
          | None => None
          end
      | None => None
      end
  | None => None
  end.

Definition codec : JSON := Build_JSON codec_Marshal codec_Unmarshal.

(** The frame the page sends for key [k] (without a timestamp). *)
Definition key_frame (k : string) : string :=
  "{" ++ dq ++ "key" ++ dq ++ ":" ++ dq ++ k ++ dq ++ ","
  ++ dq ++ "type" ++ dq ++ ":" ++ dq ++ "key" ++ dq ++ "}".


(** ** The key simulator (input/simulator.go) *)

(** [type KeySimulator interface { PressKey(key string) error }]: the error
    ([None] for nil) and the simulator afterwards. *)
Class KeySimulator (S : Type) : Type :=
  PressKey : string → S → option string * S.

(** What the simulator takes from the Go runtime and library:
    [runtime.GOOS] and [strings.ToLower]. *)
Class GoRuntime : Type := {
  runtime_GOOS : string;
  strings_ToLower : string → string
}.

(** [type keySimulator struct{}]; its only effect is the sequence of calls of
    [robotgo.KeyTap], kept here. *)
Record keySimulator : Type := mkKeySimulator {
  taps : list string
}.

Definition NewKeySimulator : keySimulator := mkKeySimulator [].

Definition robotgo_KeyTap (mappedKey : string) (k : keySimulator)
  : keySimulator :=
  mkKeySimulator (taps k ++ [mappedKey]).

Definition keyMap : gmap string string :=
  list_to_map
    [("0", "kp_0"); ("1", "kp_1"); ("2", "kp_2"); ("3", "kp_3");
     ("4", "kp_4"); ("5", "kp_5"); ("6", "kp_6"); ("7", "kp_7");
     ("8", "kp_8"); ("9", "kp_9");
     ("*", "kp_multiply"); ("+", "kp_add"); ("-", "kp_subtract");
     (".", "kp_decimal"); ("/", "kp_divide");
     ("enter", "kp_enter"); ("backspace", "backspace");
     ("escape", "escape")].

Section simulator.
Context `{GoRuntime}.

Definition mapped (key : string) : string :=
  match keyMap !! strings_ToLower key with
  | Some mappedKey => mappedKey
  | None => key
  end.

Definition pressKeyWithRobotGo (key : string) (k : keySimulator)
  : option string * keySimulator :=
  (None, robotgo_KeyTap (mapped key) k).

Definition pressKeyLinux (key : string) (k : keySimulator)
  : option string * keySimulator :=
  pressKeyWithRobotGo key k.

Definition pressKeyWindows (key : string) (k : keySimulator)
  : option string * keySimulator :=
  pressKeyWithRobotGo key k.

Definition keySimulator_PressKey (key : string) (k : keySimulator)
  : option string * keySimulator :=
  if String.eqb runtime_GOOS "linux" then pressKeyLinux key k
  else if String.eqb runtime_GOOS "windows" then pressKeyWindows key k
  else (Some ("unsupported operating system: " ++ runtime_GOOS), k).

#[export] Instance keySimulator_sink : KeySimulator keySimulator :=
  keySimulator_PressKey.

End simulator.

(** [strings.ToLower] on ASCII text. *)
Definition ascii_lower (a : ascii) : ascii :=
  let n := nat_of_ascii a in
  if ((65 <=? n) && (n <=? 90))%nat then ascii_of_nat (n + 32) else a.

Fixpoint ascii_ToLower (s : string) : string :=
  match s with
  | EmptyString => EmptyString
  | String a s' => String (ascii_lower a) (ascii_ToLower s')
  end.

Definition runtime_on (goos : string) : GoRuntime :=
  Build_GoRuntime goos ascii_ToLower.

(** A sink that fails on every key. *)
Definition failing_sink : KeySimulator unit :=
  λ key u, (Some "injection failed", u).

(** ** The pumps (server/websocket.go) *)

(** What [ReadMessage] returns next when the transport has not been closed
    on this side; [unexpected] is the answer of
    [websocket.IsUnexpectedCloseError]. *)
Inductive read_result : Type :=
| ReadFrame (message : string)
| ReadError (unexpected : bool).

(** The calls of [log.Printf] in [readPump]. *)
Inductive log_entry : Type :=
| LogReadError
| LogReceived (message : string)
| LogParseError
| LogKeyPressed (key : string)
| LogKeyPressError (err : string)
| LogKeySuccess (key : string).

(** Where the goroutine of [readPump] is: waiting in [ReadMessage], waiting
    in [connection.send <- errorMsg], returned, or panicked. *)
Inductive pump_pc : Type :=
| AtRead
| AtSend (errorMsg : string)
| Returned
| Panicked.

Record readPump_state (S : Type) : Type := mkReadPump {
  rp_connection : Connection;
  rp_input : option S;
  rp_pc : pump_pc;
  rp_presses : list string;
  rp_log : list log_entry;
  rp_unregister : nat
}.
Arguments mkReadPump {S}.
Arguments rp_connection {S}.
Arguments rp_input {S}.
Arguments rp_pc {S}.
Arguments rp_presses {S}.
Arguments rp_log {S}.
Arguments rp_unregister {S}.

Section readPump.
Context `{JSON} {S : Type} `{KeySimulator S}.

Definition rp_logf (e : log_entry) (st : readPump_state S)
  : readPump_state S :=
  mkReadPump (rp_connection st) (rp_input st) (rp_pc st) (rp_presses st)
    (rp_log st ++ [e]) (rp_unregister st).

Definition rp_goto (pc : pump_pc) (st : readPump_state S)
  : readPump_state S :=
  mkReadPump (rp_connection st) (rp_input st) pc (rp_presses st)
    (rp_log st) (rp_unregister st).

(** [defer func() { s.unregister <- connection; connection.conn.Close() }()] *)
Definition rp_deferred (st : readPump_state S) : readPump_state S :=
  mkReadPump
    (with_conn (conn_Close (conn (rp_connection st))) (rp_connection st))
    (rp_input st) (rp_pc st) (rp_presses st) (rp_log st)
    (Datatypes.S (rp_unregister st)).

(** [connection.send <- errorMsg]; a panic runs the deferred function. *)
Definition rp_send (errorMsg : string) (st : readPump_state S)
  : readPump_state S :=
  match Chan.send errorMsg (send (rp_connection st)) with
  | Done ch =>
      mkReadPump (with_send ch (rp_connection st)) (rp_input st) AtRead
        (rp_presses st) (rp_log st) (rp_unregister st)
  | Blocks => rp_goto (AtSend errorMsg) st
  | Panics => rp_goto Panicked (rp_deferred st)
  end.

Definition errorMsg_for (key : string) : string :=
  json_Marshal {[ "error" := "Failed to press key: " ++ key ]}.

(** [s.input.PressKey(keyMsg.Key)] and what follows it. *)
Definition rp_press (key : string) (sim : S) (st : readPump_state S)
  : readPump_state S :=
  let st1 := rp_logf (LogKeyPressed key) st in
  let '(err, sim') := PressKey key sim in
  let st2 := mkReadPump (rp_connection st1) (Some sim') (rp_pc st1)
               (rp_presses st1 ++ [key]) (rp_log st1) (rp_unregister st1) in
  match err with
  | Some e => rp_send (errorMsg_for key) (rp_logf (LogKeyPressError e) st2)
  | None => rp_logf (LogKeySuccess key) st2
  end.

(** One iteration of the loop of [readPump], from the call of [ReadMessage];
    [r] is what the peer delivers next. *)
Definition rp_iteration (r : read_result) (st : readPump_state S)
  : readPump_state S :=
  let r' := if conn_closed (conn (rp_connection st)) then ReadError false
            else r in
  match r' with
  | ReadError unexpected =>
      rp_goto Returned
        (rp_deferred (if unexpected then rp_logf LogReadError st else st))
  | ReadFrame message =>
      let st1 := rp_logf (LogReceived message) st in
      match json_Unmarshal message with
      | None => rp_logf LogParseError st1
      | Some keyMsg =>
          match rp_input st1 with
          | Some sim =>
              if String.eqb (Type_ keyMsg) "key"
              then rp_press (Key keyMsg) sim st1
              else st1
          | None => st1
          end
      end
  end.

Fixpoint readPump_loop (rs : list read_result) (st : readPump_state S)
  : readPump_state S :=
  match rs with
  | [] => st
  | r :: rest =>
      match rp_pc st with
      | AtRead => readPump_loop rest (rp_iteration r st)
      | _ => st
      end
  end.

(** A goroutine waiting in the send tries it again when it is woken. *)
Definition rp_resume (st : readPump_state S) : readPump_state S :=
  match rp_pc st with
  | AtSend errorMsg => rp_send errorMsg st
  | _ => st
  end.

(** [readPump] on the frames that arrive: it stops where it returns,
    panics or stays blocked, and otherwise waits for the next frame. *)
Definition readPump (rs : list read_result) (st : readPump_state S)
  : readPump_state S :=
  readPump_loop rs (rp_resume st).

(** [go s.readPump(connection)] *)
Definition start_readPump (connection : Connection) (input : option S)
  : readPump_state S :=
  mkReadPump connection input AtRead [] [] 0.

End readPump.

(** The case that the [select] of [writePump] runs. *)
Inductive select_case : Type :=
| CaseSend
| CaseTicker.

Inductive writePump_status : Type :=
| WPRunning
| WPReturned.

(** [defer func() { ticker.Stop(); connection.conn.Close() }()] *)
Definition wp_return (o : Connection) : writePump_status * Connection :=
  (WPReturned, with_conn (conn_Close (conn o)) o).

(** One iteration of the loop of [writePump]; [None] when the chosen case
    is not ready (nothing to receive). *)
Definition writePump_step (which : select_case) (net_ok : bool)
    (o : Connection) : option (writePump_status * Connection) :=
  match which with
  | CaseSend =>
      match Chan.recv (send o) with
      | Chan.RecvBlocks => None
      | Chan.RecvClosed =>
          let w := snd (conn_WriteMessage net_ok CloseMessage (conn o)) in
          Some (wp_return (with_conn w o))
      | Chan.RecvMsg message ch =>
          let o1 := with_send ch o in
          let '(ok, w) :=
            conn_WriteMessage net_ok (TextMessage message) (conn o1) in
          if ok then Some (WPRunning, with_conn w o1)
          else Some (wp_return (with_conn w o1))
      end
  | CaseTicker =>
      let '(ok, w) := conn_WriteMessage net_ok PingMessage (conn o) in
      if ok then Some (WPRunning, with_conn w o)
      else Some (wp_return (with_conn w o))
  end.

(** ** The page (static/script.js) *)

(** A parsed control payload, as far as the page inspects it: the [status]
    and [reason] properties when they are strings. *)
Record control_payload : Type := mkPayload {
  status : option string;
  reason : option string
}.

(** [JSON.parse(event.data)] followed by the property reads; [None] when this
    throws (the handler catches it). *)
Class JSParse : Type :=
  JSON_parse : string → option control_payload.

(** [class NumpadKeyboard]: its fields, and what it does to the page and
    the browser: the text and class of the connection-status element, the
    delays of the [setTimeout(() => this.connectWebSocket(), delay)] calls
    made so far, how many of these timers have fired, and the number of
    [new WebSocket] calls.
    [showNotification] only draws and is left out. *)
Record NumpadKeyboard : Type := mkPage {
  connected : bool;
  reconnectAttempts : nat;
  maxReconnectAttempts : nat;
  reconnectDelay : nat;
  wasReplaced : bool;
  connecting : bool;
  status_text : string;
  status_class : string;
  timers : list nat;
  fired : nat;
  sockets : nat
}.

Definition updateConnectionStatus (text className : string)
    (p : NumpadKeyboard) : NumpadKeyboard :=
  mkPage (connected p) (reconnectAttempts p) (maxReconnectAttempts p)
    (reconnectDelay p) (wasReplaced p) (connecting p) text className
    (timers p) (fired p) (sockets p).

Definition set_connecting (b : bool) (p : NumpadKeyboard) : NumpadKeyboard :=
  mkPage (connected p) (reconnectAttempts p) (maxReconnectAttempts p)
    (reconnectDelay p) (wasReplaced p) b (status_text p) (status_class p)
    (timers p) (fired p) (sockets p).

Definition set_connected (b : bool) (p : NumpadKeyboard) : NumpadKeyboard :=
  mkPage b (reconnectAttempts p) (maxReconnectAttempts p)
    (reconnectDelay p) (wasReplaced p) (connecting p) (status_text p)
    (status_class p) (timers p) (fired p) (sockets p).

Definition set_reconnectAttempts (n : nat) (p : NumpadKeyboard)
  : NumpadKeyboard :=
  mkPage (connected p) n (maxReconnectAttempts p)
    (reconnectDelay p) (wasReplaced p) (connecting p) (status_text p)
    (status_class p) (timers p) (fired p) (sockets p).

Definition set_wasReplaced (b : bool) (p : NumpadKeyboard) : NumpadKeyboard :=
  mkPage (connected p) (reconnectAttempts p) (maxReconnectAttempts p)
    (reconnectDelay p) b (connecting p) (status_text p) (status_class p)
    (timers p) (fired p) (sockets p).

Definition set_timers (l : list nat) (p : NumpadKeyboard) : NumpadKeyboard :=
  mkPage (connected p) (reconnectAttempts p) (maxReconnectAttempts p)
    (reconnectDelay p) (wasReplaced p) (connecting p) (status_text p)
    (status_class p) l (fired p) (sockets p).

Definition timer_fired (p : NumpadKeyboard) : NumpadKeyboard :=
  mkPage (connected p) (reconnectAttempts p) (maxReconnectAttempts p)
    (reconnectDelay p) (wasReplaced p) (connecting p) (status_text p)
    (status_class p) (timers p) (Datatypes.S (fired p)) (sockets p).

Definition new_WebSocket (p : NumpadKeyboard) : NumpadKeyboard :=
  mkPage (connected p) (reconnectAttempts p) (maxReconnectAttempts p)
    (reconnectDelay p) (wasReplaced p) (connecting p) (status_text p)
    (status_class p) (timers p) (fired p) (Datatypes.S (sockets p)).

(** [connectWebSocket()]; [ctor_ok] is false when [new WebSocket] throws. *)
Definition connectWebSocket (ctor_ok : bool) (p : NumpadKeyboard)
  : NumpadKeyboard :=
  if connecting p then p
  else
    let p1 := set_connecting true p in
    if ctor_ok then new_WebSocket p1 else set_connecting false p1.

(** [attemptReconnect()] *)
Definition attemptReconnect (p : NumpadKeyboard) : NumpadKeyboard :=
  if (reconnectAttempts p <? maxReconnectAttempts p)%nat then
    let p1 := set_reconnectAttempts (Datatypes.S (reconnectAttempts p)) p in
    let p2 :=
      updateConnectionStatus
        ("Reconnecting... (" ++ pretty (reconnectAttempts p1) ++ "/"
         ++ pretty (maxReconnectAttempts p1) ++ ")")
        EmptyString p1 in
    set_timers (timers p2 ++ [reconnectDelay p2]) p2
  else updateConnectionStatus "Connection failed" EmptyString p.

(** [this.ws.onopen] *)
Definition onopen (p : NumpadKeyboard) : NumpadKeyboard :=
  updateConnectionStatus "Connected" "connected"
    (set_connecting false (set_reconnectAttempts 0 (set_connected true p))).

(** [this.ws.onclose] *)
Definition onclose (p : NumpadKeyboard) : NumpadKeyboard :=
  let p1 := updateConnectionStatus "Disconnected" EmptyString
              (set_connected false p) in
  if wasReplaced p1 then set_wasReplaced false p1
  else attemptReconnect p1.

(** [this.ws.onerror] *)
Definition onerror (p : NumpadKeyboard) : NumpadKeyboard :=
  set_connecting false p.

Definition is_eviction (m : control_payload) : bool :=
  bool_decide (status m = Some "disconnected")
  && bool_decide (reason m = Some "Another device connected").

Section page.
Context `{JSParse}.

(** [handleWebSocketMessage(event)] *)
Definition handleWebSocketMessage (data : string) (p : NumpadKeyboard)
  : NumpadKeyboard :=
  match JSON_parse data with
  | None => p
  | Some message =>
      if bool_decide (status message = Some "connected") then
        updateConnectionStatus "Connected" "connected" p
      else if bool_decide (status message = Some "disconnected") then
        let p1 := updateConnectionStatus "Disconnected" EmptyString p in
        if bool_decide (reason message = Some "Another device connected")
        then set_wasReplaced true p1
        else p1
      else p
  end.

(** What happens to the page after it is loaded. *)
Inductive page_event : Type :=
| WsOpen
| WsMessage (data : string)
| WsClose
| WsError
| TimerFires (ctor_ok : bool)
| WindowFocus (ctor_ok : bool).

Definition page_step (p : NumpadKeyboard) (ev : page_event)
  : NumpadKeyboard :=
  match ev with
  | WsOpen => onopen p
  | WsMessage data => handleWebSocketMessage data p
  | WsClose => onclose p
  | WsError => onerror p
  | TimerFires ctor_ok =>
      if (fired p <? length (timers p))%nat
      then connectWebSocket ctor_ok (timer_fired p)
      else p
  | WindowFocus ctor_ok =>
      if negb (connected p) && (reconnectAttempts p =? 0)%nat
      then connectWebSocket ctor_ok p
      else p
  end.

Definition page_run (evs : list page_event) (p : NumpadKeyboard)
  : NumpadKeyboard :=
  fold_left page_step evs p.

(** Whether an eviction notice has arrived since the last close. *)
Definition evicted_since_close (evs : list page_event) : bool :=
  fold_left
    (λ b ev,
       match ev with
       | WsMessage data =>
           match JSON_parse data with
           | Some m => b || is_eviction m
           | None => b
           end
       | WsClose => false
       | _ => b
       end) evs false.

End page.

(** [new NumpadKeyboard()]: the constructor and [init()]. *)
Definition new_NumpadKeyboard (ctor_ok : bool) : NumpadKeyboard :=
  connectWebSocket ctor_ok
    (mkPage false 0 5 2000 false false EmptyString EmptyString [] 0 0).

(** ** Derived notions and sample states *)

(** The incumbent after the register case has dealt with it, and what the
    hub did to it. *)
Definition evicted `{JSON} (o : Connection) : Connection :=
  let o1 := if Chan.has_room (send o)
            then with_send (Chan.push closeMsg (send o)) o
            else o in
  with_conn (conn_Close (conn o1)) o1.

Definition eviction_effects `{JSON} (e : ptr) (o : Connection)
  : list effect :=
  (if Chan.has_room (send o) then [Sent e closeMsg; Slept 100] else [])
  ++ [ConnClosed e].

(** A member after a broadcast of [message], and what the hub did to it. *)
Definition close_send (o : Connection) : Connection :=
  with_send (Chan.mk (Chan.buf (send o)) (Chan.cap (send o)) true) o.

Definition after_broadcast (message : string) (o : Connection) : Connection :=
  if Chan.has_room (send o)
  then with_send (Chan.push message (send o)) o
  else close_send o.

Definition broadcast_effects (message : string) (c : ptr) (o : Connection)
  : list effect :=
  if Chan.has_room (send o) then [Sent c message] else [ChanClosed c].

(** A member after [Shutdown]. *)
Definition after_shutdown (o : Connection) : Connection :=
  mkConnection (conn_Close (conn o))
    (Chan.mk (Chan.buf (send o)) (Chan.cap (send o)) true).

Definition effects_of (fx : ptr → Connection → list effect)
    (s : WebSocketServer) (keys : list ptr) : list effect :=
  concat (map (λ c, from_option (fx c) [] (heap s !! c)) keys).



(** The store after two upgrades, before either record is registered. *)
Definition two_records : WebSocketServer :=
  mkServer ∅ (<[0 := newConnection]> (<[1 := newConnection]> ∅)) [].

(** Record 7 on its own in the map. *)
Definition one_member : WebSocketServer :=
  mkServer {[7]} (<[7 := newConnection]> ∅) [].


(** The read pump as it sees its record after another goroutine has changed
    the [send] channel. *)
Definition rp_set_send {S : Type} (ch : Chan.chan) (st : readPump_state S)
  : readPump_state S :=
  mkReadPump (with_send ch (rp_connection st)) (rp_input st) (rp_pc st)
    (rp_presses st) (rp_log st) (rp_unregister st).

(** A record whose queue holds 256 payloads, and its read pump with the
    failing sink. *)
Definition full_connection : Connection :=
  mkConnection (mkConn false []) (Chan.mk (replicate 256 "m") 256 false).

Definition full_pump : readPump_state unit :=
  mkReadPump full_connection (Some tt) AtRead [] [] 0.

(** After the first register event on [two_records]. *)
Definition first_registered : WebSocketServer :=
  mkServer {[0]}
    (<[0 := with_send (Chan.push (@welcomeMsg codec) (Chan.make 256))
              newConnection]>
       (<[1 := newConnection]> ∅))
    [Sent 0 (@welcomeMsg codec)].

(** The read pump of a new record, with the failing sink and with the
    built-in simulator on linux. *)
Definition failing_pump : readPump_state unit :=
  mkReadPump newConnection (Some tt) AtRead [] [] 0.

Definition linux_pump : readPump_state keySimulator :=
  mkReadPump newConnection (Some NewKeySimulator) AtRead [] [] 0.

(** Events that neither deliver a payload nor close the socket. *)
Definition quiet (ev : page_event) : bool :=
  match ev with
  | WsMessage _ => false
  | WsClose => false
  | _ => true
  end.

Definition not_open (ev : page_event) : bool :=
  match ev with
  | WsOpen => false
  | _ => true
  end.

(** How [JSON.parse] and the property reads of the page come out on the
    payloads of the server: the eviction notice, the welcome, and an error
    payload (which has no [status] and no [reason]). *)
Definition page_parse : JSParse :=
  λ data,
    if String.eqb data (@closeMsg codec)
    then Some (mkPayload (Some "disconnected")
                 (Some "Another device connected"))
    else if String.eqb data (@welcomeMsg codec)
    then Some (mkPayload (Some "connected") None)
    else if String.prefix ("{" ++ dq ++ "error" ++ dq ++ ":") data
    then Some (mkPayload None None)
    else None.

(** The page is connected, receives the eviction notice and then an error
    payload. *)
Definition evicted_then_error : list page_event :=
  [WsOpen; WsMessage (@closeMsg codec); WsMessage (@errorMsg_for codec "x")].

(** The constants of the constructor stay, and the counter stays within
    them. *)
Definition page_inv (p : NumpadKeyboard) : Prop :=
  maxReconnectAttempts p = 5%nat ∧ reconnectDelay p = 2000%nat
  ∧ (reconnectAttempts p <= 5)%nat.

(** ** Further notions for the hub *)

(** What reaches the hub from outside: a request on /ws (with the outcome
    of the upgrade and the iteration order the register case will see), the
    unregister event that a read pump submits when it ends, and a
    broadcast. *)
Inductive arrival : Type :=
| Request (upgraded : bool) (seed : nat)
| PumpEnded (connection : ptr)
| Published (message : string).

(** [handleWebSocket] returns at once when the upgrade fails. *)
Definition serve_step `{JSON} (a : arrival) (s : WebSocketServer)
  : outcome WebSocketServer :=
  match a with
  | Request upgraded seed =>
      if upgraded then handleWebSocket seed s else Done s
  | PumpEnded connection => unregister connection s
  | Published message => broadcast message s
  end.

Fixpoint serve `{JSON} (arrivals : list arrival) (s : WebSocketServer)
  : outcome WebSocketServer :=
  match arrivals with
  | [] => Done s
  | a :: rest => s' ←! serve_step a s; serve rest s'
  end.

(** How often the hub has closed the queue of record [c]. *)
Definition is_close (c : ptr) (e : effect) : bool :=
  match e with
  | ChanClosed c' => Nat.eqb c c'
  | _ => false
  end.

Definition closes (c : ptr) (tr : list effect) : nat :=
  length (List.filter (is_close c) tr).

Definition closed_in (s : WebSocketServer) (c : ptr) : bool :=
  match heap s !! c with
  | Some o => Chan.closed (send o)
  | None => false
  end.

(** From [s] to [s'] the queue of [c] was closed at most once, and not at
    all when it was closed before. *)
Definition closes_once (c : ptr) (s s' : WebSocketServer) : Prop :=
  (closes c (trace s') = closes c (trace s)
   ∨ (closes c (trace s') = Datatypes.S (closes c (trace s))
      ∧ closed_in s' c = true))
  ∧ (closed_in s c = true →
     closes c (trace s') = closes c (trace s) ∧ closed_in s' c = true).

(** ** Further notions for the pumps *)

(** [writePump] under a schedule: for each iteration, the case of the
    select that runs and whether the network accepts the write.  A case
    that is not ready does not run.  The pump stops where it returns. *)
Fixpoint writePump (schedule : list (select_case * bool)) (o : Connection)
  : writePump_status * Connection :=
  match schedule with
  | [] => (WPRunning, o)
  | (which, net_ok) :: rest =>
      match writePump_step which net_ok o with
      | None => writePump rest o
      | Some (WPRunning, o') => writePump rest o'
      | Some (WPReturned, o') => (WPReturned, o')
      end
  end.

(** The payloads of the text frames among the frames written. *)
Fixpoint texts (fs : list frame) : list string :=
  match fs with
  | [] => []
  | TextMessage m :: rest => m :: texts rest
  | _ :: rest => texts rest
  end.

(** The keys of the frames of type key, up to the first read error. *)
Fixpoint keys_read `{JSON} (rs : list read_result) : list string :=
  match rs with
  | [] => []
  | ReadError _ :: _ => []
  | ReadFrame message :: rest =>
      match json_Unmarshal message with
      | Some keyMsg =>
          if String.eqb (Type_ keyMsg) "key"
          then Key keyMsg :: keys_read rest
          else keys_read rest
      | None => keys_read rest
      end
  end.

(** [PressKey] on one key after the other. *)
Definition press_all `{GoRuntime} (keys : list string) (k : keySimulator)
  : keySimulator :=
  fold_left (λ k key, snd (PressKey key k)) keys k.

(** A record with three payloads queued. *)
Definition three_queued : Connection :=
  mkConnection (mkConn false [])
    (Chan.mk ["a"; "b"; "c"] 256 false).

(** A read pump on a new record with no sink installed. *)
Definition bare_pump : readPump_state unit :=
  mkReadPump newConnection None AtRead [] [] 0.

(** A session: two keys, a frame that is not JSON, a key, then the read
    fails and a frame that never arrives. *)
Definition session : list read_result :=
  [ReadFrame (key_frame "1"); ReadFrame (key_frame "+");
   ReadFrame "not json"; ReadFrame (key_frame "2");
   ReadError true; ReadFrame (key_frame "3")].

(** ** Further notions for the page *)

(** Events that end a connection attempt: the socket opened, or failed. *)
Definition finishes (ev : page_event) : bool :=
  match ev with
  | WsOpen => true
  | WsError => true
  | _ => false
  end.

(** One failed reconnection: the socket closes, the timer of the retry
    fires and creates a socket, and that socket fails (its close event
    starts the next round). *)
Definition failed_round : list page_event :=
  [WsClose; TimerFires true; WsError].

Definition failed_rounds (n : nat) : list page_event :=
  concat (replicate n failed_round).

(** No eviction notice since the last close, no connection attempt pending
    and no retry timer pending. *)
Definition idle (p : NumpadKeyboard) : Prop :=
  wasReplaced p = false ∧ connecting p = false
  ∧ fired p = length (timers p).

(** [userAgent.match(/a|b|c/i)], for alternatives that are plain words:
    whether one of them occurs in the string, ASCII letters compared without
    regard to case (without the u flag a character outside ASCII matches
    no ASCII letter). *)
Fixpoint occurs (word s : string) : bool :=
  String.prefix word s
  || match s with
     | EmptyString => false
     | String _ s' => occurs word s'
     end.

Definition matches_i (alternatives : list string) (s : string) : bool :=
  existsb (λ word, occurs (ascii_ToLower word) (ascii_ToLower s))
    alternatives.

(** The [deviceType] that [getDeviceId()] computes. *)
Definition deviceType (userAgent : string) : string :=
  if matches_i ["Mobile"; "Android"; "iPhone"; "iPad"; "iPod"] userAgent
  then "Mobile"
  else if matches_i ["Tablet"; "iPad"] userAgent then "Tablet"
  else "Desktop".

(** [getBrowserName()] *)
Definition getBrowserName (userAgent : string) : string :=
  if matches_i ["Chrome"] userAgent then "Chrome"
  else if matches_i ["Firefox"] userAgent then "Firefox"
  else if matches_i ["Safari"] userAgent then "Safari"
  else if matches_i ["Edge"] userAgent then "Edge"
  else "Unknown".

(** [getDeviceId()] *)
Definition getDeviceId (userAgent : string) : string :=
  deviceType userAgent ++ " (" ++ getBrowserName userAgent ++ ")".

(** User agents of an iPad with Safari and of Edge on Windows. *)
Definition ipad_agent : string :=
  "Mozilla/5.0 (iPad; CPU OS 16_0 like Mac OS X) AppleWebKit/605.1.15 (KHTML, like Gecko) Version/16.0 Mobile/15E148 Safari/604.1".

Definition edge_agent : string :=
  "Mozilla/5.0 (Windows NT 10.0; Win64; x64) AppleWebKit/537.36 (KHTML, like Gecko) Chrome/120.0.0.0 Safari/537.36 Edg/120.0.0.0".

(** ** Notions for the revised statements *)

(** Record 7, with a full queue, on its own in the map. *)
Definition full_member : WebSocketServer :=
  mkServer {[7]} (<[7 := full_connection]> ∅) [].

(** [word] occurs in [s] up to the case of ASCII letters: some part of [s]
    differs from [word] at most in the case of its letters. *)
Definition contains_i (word s : string) : Prop :=
  ∃ pre mid post,
    s = (pre ++ mid ++ post)%string
    ∧ ascii_ToLower mid = ascii_ToLower word.

(** * Properties *)

Local Open Scope nat_scope.
Local Open Scope list_scope.
#[local] Set Warnings "-clear-no-such-hyp".

(** The codec on the payloads of the protocol. *)
Example codec_closeMsg :
  @closeMsg codec =
  ("{" ++ dq ++ "reason" ++ dq ++ ":" ++ dq ++ "Another device connected"
   ++ dq ++ "," ++ dq ++ "status" ++ dq ++ ":" ++ dq ++ "disconnected" ++ dq
   ++ "}")%string.
Proof. vm_compute. reflexivity. Qed.

Example codec_key_frame :
  codec_Unmarshal (key_frame "5") = Some (mkKeyMessage "5" "key")
  ∧ codec_Unmarshal (String.substring 0 23 (key_frame "5")
                     ++ "," ++ dq ++ "timestamp" ++ dq
                     ++ ":1700000000000}")%string
    = Some (mkKeyMessage "5" "key")
  ∧ codec_Unmarshal "not json" = None.
Proof. vm_compute. repeat split; reflexivity. Qed.

Example two_connects :
  (s1 ←! @handleWebSocket codec 0 NewWebSocketServer;
   s2 ←! @handleWebSocket codec 0 s1;
   Done (size (connections s2), is_live s2 0, is_live s2 1))
  = Done (2, false, true).
Proof. vm_compute. reflexivity. Qed.

(** ** The hub *)

Lemma obind_Done {A B} (x : outcome A) (f : A → outcome B) (b : B) :
  obind x f = Done b → ∃ a, x = Done a ∧ f a = Done b.
Proof. destruct x; simpl; intros E; try discriminate. eauto. Qed.

Lemma deref_Done c s o : deref c s = Done o → heap s !! c = Some o.
Proof. unfold deref. destruct (heap s !! c); congruence. Qed.

Lemma member_ok_lookup s c :
  member_ok s c = true →
  ∃ o, heap s !! c = Some o ∧ Chan.closed (send o) = false.
Proof.
  unfold member_ok. destruct (heap s !! c) as [o|]; [|discriminate].
  intros E. exists o. split; [reflexivity|].
  destruct (Chan.closed (send o)); [discriminate|reflexivity].
Qed.

Lemma hub_wfb_spec s : hub_wfb s = true ↔ hub_wf s.
Proof.
  unfold hub_wfb, hub_wf. rewrite forallb_forall. split.
  - intros E c Hc. apply E, list_elem_of_In, elem_of_elements, Hc.
  - intros E c Hc. apply E, elem_of_elements, list_elem_of_In, Hc.
Qed.

(** The choice of the incumbent: some member is returned whenever there is
    one, and every member is returned for some iteration order. *)
Lemma getExistingConnection_member seed s e :
  getExistingConnection seed s = Some e → e ∈ connections s.
Proof.
  unfold getExistingConnection. intros E.
  apply elem_of_elements, list_elem_of_lookup. eauto.
Qed.

Lemma getExistingConnection_some seed s :
  connections s ≠ ∅ → is_Some (getExistingConnection seed s).
Proof.
  intros Hne. unfold getExistingConnection.
  apply lookup_lt_is_Some.
  assert (size (connections s) ≠ 0) as Hsz.
  { intros E%size_empty_inv. apply Hne, leibniz_equiv, E. }
  change (length (elements (connections s))) with (size (connections s)).
  apply Nat.mod_upper_bound, Hsz.
Qed.

Lemma getExistingConnection_any s e :
  e ∈ connections s → ∃ seed, getExistingConnection seed s = Some e.
Proof.
  intros He. apply elem_of_elements, list_elem_of_lookup in He as [i Hi].
  exists i. unfold getExistingConnection.
  assert (i < size (connections s)) as Hlt.
  { apply lookup_lt_Some in Hi. exact Hi. }
  rewrite Nat.mod_small by exact Hlt. exact Hi.
Qed.


(** A loop over the members whose body rewrites the visited record, keeps
    or deletes its entry and leaves the others alone. *)
Section range.
Variable body : ptr → WebSocketServer → outcome WebSocketServer.
Variable upd : Connection → Connection.
Variable keep : Connection → bool.
Variable fx : ptr → Connection → list effect.
Hypothesis body_spec : ∀ c s o,
  heap s !! c = Some o → Chan.closed (send o) = false →
  body c s =
  Done (mkServer
          (if keep o then connections s else connections s ∖ {[c]})
          (<[c := upd o]> (heap s))
          (trace s ++ fx c o)).

Lemma range_over_spec keys s :
  NoDup keys → (∀ c, c ∈ keys → member_ok s c = true) →
  ∃ s', range_over body keys s = Done s'
    ∧ (∀ c, c ∈ connections s' ↔
            c ∈ connections s
            ∧ ¬ (c ∈ keys ∧ ∃ o, heap s !! c = Some o ∧ keep o = false))
    ∧ (∀ c, heap s' !! c =
            if decide (c ∈ keys) then upd <$> heap s !! c else heap s !! c)
    ∧ trace s' = trace s ++ effects_of fx s keys.
Proof.
  unfold effects_of. intros Hnd. revert s. induction Hnd as [|c keys Hnotin Hnd IH]; intros s Hok.
  - exists s. split; [reflexivity|]. split; [|split].
    + intros c. split.
      * intros Hc. split; [exact Hc|]. intros [Hin _]. inversion Hin.
      * intros [Hc _]. exact Hc.
    + intros c. destruct (decide (c ∈ [])) as [Hin|_]; [|reflexivity].
      inversion Hin.
    + simpl. rewrite app_nil_r. reflexivity.
  - destruct (member_ok_lookup s c) as (o & Ho & Hopen).
    { apply Hok. set_solver. }
    simpl. rewrite (body_spec c s o Ho Hopen). simpl.
    set (s1 := mkServer _ _ _).
    assert (∀ x, x ≠ c → heap s1 !! x = heap s !! x) as Hother.
    { intros x Hx. subst s1. simpl. apply lookup_insert_ne. congruence. }
    destruct (IH s1) as (s' & Hrun & Hconn & Hheap & Htrace).
    { intros x Hx. unfold member_ok. rewrite Hother.
      - apply Hok. set_solver.
      - intros ->. contradiction. }
    exists s'. split; [exact Hrun|]. split; [|split].
    + intros x. rewrite Hconn. subst s1. simpl.
      destruct (decide (x = c)) as [->|Hne].
      * split.
        -- intros [Hin _]. destruct (keep o) eqn:Hk.
           ++ split; [exact Hin|]. intros [_ (o' & Ho' & Hk')]. congruence.
           ++ set_solver.
        -- intros [Hin Hno]. destruct (keep o) eqn:Hk.
           ++ split; [exact Hin|]. intros [Hc _]. contradiction.
           ++ exfalso. apply Hno. split; [set_solver|eauto].
      * rewrite lookup_insert_ne by congruence.
        assert (x ∈ (if keep o then connections s else connections s ∖ {[c]})
                ↔ x ∈ connections s) as ->.
        { destruct (keep o); set_solver. }
        set_solver.
    + intros x. rewrite Hheap.
      destruct (decide (x = c)) as [->|Hne].
      * rewrite decide_False by exact Hnotin.
        rewrite decide_True by set_solver.
        subst s1. simpl. rewrite lookup_insert_eq, Ho. reflexivity.
      * rewrite (Hother x Hne).
        destruct (decide (x ∈ keys)) as [Hin|Hout].
        -- rewrite decide_True by set_solver. reflexivity.
        -- rewrite decide_False by set_solver. reflexivity.
    + rewrite Htrace. subst s1. simpl. rewrite Ho. simpl.
      rewrite <- app_assoc. f_equal. f_equal. f_equal.
      apply map_ext_in. intros x Hx. apply list_elem_of_In in Hx.
      rewrite lookup_insert_ne; [reflexivity|]. intros ->. contradiction.
Qed.

End range.

Lemma broadcast_one_spec message c s o :
  heap s !! c = Some o → Chan.closed (send o) = false →
  broadcast_one message c s =
  Done (mkServer
          (if Chan.has_room (send o) then connections s
           else connections s ∖ {[c]})
          (<[c := after_broadcast message o]> (heap s))
          (trace s ++ broadcast_effects message c o)).
Proof.
  intros Ho Hopen.
  unfold broadcast_one, deref, after_broadcast, broadcast_effects, close_send.
  rewrite Ho. simpl. unfold Chan.try_send, Chan.close. rewrite Hopen.
  destruct (Chan.has_room (send o)); reflexivity.
Qed.

Lemma shutdown_one_spec c s o :
  heap s !! c = Some o → Chan.closed (send o) = false →
  shutdown_one c s =
  Done (mkServer
          (if (λ _ : Connection, false) o then connections s
           else connections s ∖ {[c]})
          (<[c := after_shutdown o]> (heap s))
          (trace s ++ [ChanClosed c; ConnClosed c])).
Proof.
  intros Ho Hopen. unfold shutdown_one, deref, after_shutdown.
  rewrite Ho. simpl. unfold Chan.close. rewrite Hopen. reflexivity.
Qed.

Lemma unregister_not_member c s :
  c ∉ connections s → unregister c s = Done s.
Proof. intros Hc. unfold unregister. rewrite decide_False; done. Qed.

Lemma unregister_member c s o :
  c ∈ connections s → heap s !! c = Some o → Chan.closed (send o) = false →
  unregister c s =
  Done (mkServer (connections s ∖ {[c]}) (<[c := close_send o]> (heap s))
          (trace s ++ [ChanClosed c])).
Proof.
  intros Hc Ho Hopen. unfold unregister, deref, close_send.
  rewrite decide_True by exact Hc. rewrite Ho. simpl.
  unfold Chan.close. rewrite Hopen. reflexivity.
Qed.

(** C4. Unregister is idempotent.  From any state in which the members have
    open queues, the unregister case returns; a second unregister event for
    the same record returns the state the first one produced (same map,
    same queues, no further effect, no second close of the queue), and an
    unregister event for a record that is not in the map changes nothing.
    The queue is closed by the first event exactly when the record was a
    member. *)
Theorem unregister_idempotent (s : WebSocketServer) (connection : ptr) :
  hub_wf s →
  ∃ s1, unregister connection s = Done s1
    ∧ unregister connection s1 = Done s1
    ∧ (connection ∉ connections s → s1 = s)
    ∧ connections s1 = connections s ∖ {[connection]}
    ∧ trace s1 =
      trace s ++ (if decide (connection ∈ connections s)
                  then [ChanClosed connection] else []).
Proof.
  intros Hwf. destruct (decide (connection ∈ connections s)) as [Hin|Hout].
  - destruct (member_ok_lookup s connection (Hwf _ Hin)) as (o & Ho & Hopen).
    eexists. split; [apply (unregister_member _ _ o); assumption|].
    split; [|split; [|split]].
    + apply unregister_not_member. simpl. set_solver.
    + intros Hout. contradiction.
    + reflexivity.
    + reflexivity.
  - exists s. split; [apply unregister_not_member, Hout|].
    split; [apply unregister_not_member, Hout|].
    split; [reflexivity|]. split.
    + set_solver.
    + rewrite app_nil_r. reflexivity.
Qed.

Lemma one_member_wf : hub_wf one_member.
Proof. apply hub_wfb_spec. vm_compute. reflexivity. Qed.

Lemma unregister_idempotent_witness :
  ∃ s1, unregister 7 one_member = Done s1
    ∧ unregister 7 s1 = Done s1
    ∧ (7 ∉ connections one_member → s1 = one_member)
    ∧ connections s1 = connections one_member ∖ {[7]}
    ∧ trace s1 =
      trace one_member ++ (if decide (7 ∈ connections one_member)
                           then [ChanClosed 7] else []).
Proof. apply (unregister_idempotent one_member 7). exact one_member_wf. Defined.

(** C5. Broadcast.  From any state in which the members have open queues
    the broadcast case returns (it neither blocks nor panics).  A member
    whose queue has room (fewer payloads than its capacity) stays in the
    map, and its queue holds what it held followed by the payload and is
    still open; a member whose queue is full is deleted from the map and
    its queue is closed, with its contents unchanged.  In both cases the
    transport and the capacity are as they were.  The hub performs one
    effect per member, a send or a close, and records outside the map are
    not touched. *)
Theorem broadcast_spec (message : string) (s : WebSocketServer) :
  hub_wf s →
  ∃ s', broadcast message s = Done s'
    ∧ (∀ c o, c ∈ connections s → heap s !! c = Some o →
         ∃ o', heap s' !! c = Some o'
           ∧ conn o' = conn o
           ∧ Chan.cap (send o') = Chan.cap (send o)
           ∧ if length (Chan.buf (send o)) <? Chan.cap (send o)
             then (c ∈ connections s'
                   ∧ Chan.buf (send o') = Chan.buf (send o) ++ [message]
                   ∧ Chan.closed (send o') = false)
             else ((c ∉ connections s')
                   ∧ Chan.buf (send o') = Chan.buf (send o)
                   ∧ Chan.closed (send o') = true))
    ∧ connections s' ⊆ connections s
    ∧ (∀ c, c ∉ connections s → heap s' !! c = heap s !! c)
    ∧ trace s' =
      trace s
      ++ concat
           (map (λ c,
                   match heap s !! c with
                   | Some o =>
                       if length (Chan.buf (send o)) <? Chan.cap (send o)
                       then [Sent c message]
                       else [ChanClosed c]
                   | None => []
                   end)
              (elements (connections s))).
Proof.
  intros Hwf.
  destruct (range_over_spec (broadcast_one message) (after_broadcast message)
              (λ o, Chan.has_room (send o)) (broadcast_effects message)
              (broadcast_one_spec message)
              (elements (connections s)) s)
    as (s' & Hrun & Hconn & Hheap & Htrace).
  { apply NoDup_elements. }
  { intros c Hc. apply Hwf, elem_of_elements, Hc. }
  exists s'. split; [exact Hrun|]. split; [|split; [|split]].
  - intros c o Hc Ho. specialize (Hheap c). specialize (Hconn c).
    rewrite decide_True in Hheap by (apply elem_of_elements, Hc).
    rewrite Ho in Hheap. simpl in Hheap.
    destruct (member_ok_lookup s c (Hwf c Hc)) as (o0 & Ho0 & Hopen).
    assert (o0 = o) as -> by congruence.
    exists (after_broadcast message o). split; [exact Hheap|].
    unfold after_broadcast, Chan.has_room, close_send.
    destruct (length (Chan.buf (send o)) <? Chan.cap (send o)) eqn:Hroom;
      simpl.
    + split; [reflexivity|]. split; [reflexivity|].
      split; [|split; [reflexivity|exact Hopen]].
      apply Hconn. split; [exact Hc|].
      intros [_ (o' & Ho' & Hk)]. unfold Chan.has_room in Hk. congruence.
    + split; [reflexivity|]. split; [reflexivity|].
      split; [|split; reflexivity].
      intros Hin. apply Hconn in Hin as [_ Hno].
      apply Hno. split; [apply elem_of_elements, Hc|].
      exists o. split; [exact Ho|exact Hroom].
  - intros c Hc. apply Hconn in Hc as [Hc _]. exact Hc.
  - intros c Hc. rewrite Hheap. rewrite decide_False; [reflexivity|].
    intros Hin. apply Hc, elem_of_elements, Hin.
  - exact Htrace.
Qed.

Lemma full_member_wf : hub_wf full_member.
Proof. apply hub_wfb_spec. vm_compute. reflexivity. Qed.

Lemma broadcast_spec_witness :
  (∃ s' o', broadcast "ping" one_member = Done s'
     ∧ 7 ∈ connections s'
     ∧ heap s' !! 7 = Some o'
     ∧ Chan.buf (send o') = ["ping"%string]
     ∧ Chan.closed (send o') = false)
  ∧ (∃ s' o', broadcast "ping" full_member = Done s'
       ∧ (7 ∉ connections s')
       ∧ heap s' !! 7 = Some o'
       ∧ Chan.buf (send o') = replicate 256 "m"%string
       ∧ Chan.closed (send o') = true).
Proof.
  split.
  - destruct (broadcast_spec "ping" one_member one_member_wf)
      as (s' & Hrun & Hmem & _).
    destruct (Hmem 7 newConnection) as (o' & Ho' & _ & _ & Hin & Hbuf & Hcl).
    + change (7 ∈ ({[7]} : gset nat)). set_solver.
    + vm_compute. reflexivity.
    + exists s', o'. repeat split; assumption.
  - destruct (broadcast_spec "ping" full_member full_member_wf)
      as (s' & Hrun & Hmem & _).
    destruct (Hmem 7 full_connection) as (o' & Ho' & _ & _ & Hout & Hbuf & Hcl).
    + change (7 ∈ ({[7]} : gset nat)). set_solver.
    + vm_compute. reflexivity.
    + exists s', o'. repeat split; assumption.
Defined.

Section hub_facts.
Context `{JSON}.

Lemma notify_and_close_spec e s o :
  heap s !! e = Some o → Chan.closed (send o) = false →
  notify_and_close e s =
  Done (mkServer (connections s) (<[e := evicted o]> (heap s))
          (trace s ++ eviction_effects e o)).
Proof.
  intros Ho Hopen. unfold notify_and_close, deref, evicted, eviction_effects.
  rewrite Ho. simpl. unfold Chan.try_send. rewrite Hopen.
  destruct (Chan.has_room (send o)); reflexivity.
Qed.

(** The register case on a new record, with its empty queue: what it does
    when the map is empty and when it is not. *)
Lemma register_first connection seed s o :
  connections s = ∅ → heap s !! connection = Some o →
  Chan.closed (send o) = false → Chan.has_room (send o) = true →
  register connection seed s =
  Done (mkServer {[connection]}
          (<[connection := with_send (Chan.push welcomeMsg (send o)) o]>
             (heap s))
          (trace s ++ [Sent connection welcomeMsg])).
Proof.
  intros Hempty Ho Hopen Hroom. unfold register.
  rewrite Hempty, size_empty. simpl. unfold deref. simpl. rewrite Ho. simpl.
  unfold Chan.send. rewrite Hopen, Hroom. simpl.
  rewrite Hempty. f_equal. f_equal. set_solver.
Qed.

Lemma register_next connection seed s o :
  hub_wf s → connections s ≠ ∅ → connection ∉ connections s →
  heap s !! connection = Some o →
  Chan.closed (send o) = false → Chan.has_room (send o) = true →
  ∃ existingConn oe,
    getExistingConnection seed s = Some existingConn
    ∧ existingConn ∈ connections s
    ∧ heap s !! existingConn = Some oe
    ∧ register connection seed s =
      Done (mkServer ({[connection]} ∪ connections s)
              (<[connection := with_send (Chan.push welcomeMsg (send o)) o]>
                 (<[existingConn := evicted oe]> (heap s)))
              (trace s ++ eviction_effects existingConn oe
               ++ [Sent connection welcomeMsg])).
Proof.
  intros Hwf Hne Hnew Ho Hopen Hroom.
  destruct (getExistingConnection_some seed s Hne) as [e He].
  pose proof (getExistingConnection_member _ _ _ He) as Hin.
  destruct (member_ok_lookup s e (Hwf _ Hin)) as (oe & Hoe & Hopen_e).
  exists e, oe. split; [exact He|]. split; [exact Hin|]. split; [exact Hoe|].
  unfold register.
  assert ((1 <=? size (connections s))%nat = true) as ->.
  { apply Nat.leb_le. destruct (size (connections s)) eqn:Hsz; [|lia].
    apply size_empty_inv in Hsz. exfalso. apply Hne, leibniz_equiv, Hsz. }
  rewrite He, (notify_and_close_spec e s oe Hoe Hopen_e). simpl.
  unfold deref. simpl.
  rewrite lookup_insert_ne by (intros ->; contradiction).
  rewrite Ho. simpl. unfold Chan.send. rewrite Hopen, Hroom. simpl.
  rewrite <- app_assoc. reflexivity.
Qed.

(** The states of the hub keep the members' queues open. *)
Lemma range_over_rel (R : WebSocketServer → WebSocketServer → Prop) body :
  (∀ s, R s s) → (∀ a b c, R a b → R b c → R a c) →
  (∀ c s s1, body c s = Done s1 → R s s1) →
  ∀ keys s s', range_over body keys s = Done s' → R s s'.
Proof.
  intros Hrefl Htrans Hbody keys.
  induction keys as [|c keys IH]; intros s s' Hrun; simpl in Hrun.
  - injection Hrun as <-. apply Hrefl.
  - apply obind_Done in Hrun as (s1 & H1 & H2).
    eapply Htrans; [eapply Hbody, H1|apply IH, H2].
Qed.

End hub_facts.

Lemma is_live_insert X t s c o o' x :
  heap s !! c = Some o → conn o' = conn o →
  is_live (mkServer X (<[c := o']> (heap s)) t) x = is_live s x.
Proof.
  intros Ho Hconn. unfold is_live. simpl.
  destruct (decide (x = c)) as [->|Hne].
  - rewrite lookup_insert_eq, Ho, Hconn. reflexivity.
  - rewrite lookup_insert_ne by congruence. reflexivity.
Qed.





Section capacity.
Context `{JSON}.






End capacity.



Section register_facts.
Context `{JSON}.


End register_facts.

Lemma first_registered_wf : hub_wf first_registered.
Proof. apply hub_wfb_spec. vm_compute. reflexivity. Qed.



Example first_registered_is_reached :
  register (H:=codec) 0 0 two_records = Done first_registered.
Proof.
  rewrite (register_first (H:=codec) 0 0 two_records newConnection);
    reflexivity.
Qed.

(** ** The members' queues stay open

    Every state that [Run] reaches from a state in which the members have
    open queues is such a state again: a queue is closed only together with
    the deletion of its entry. *)

Lemma member_ok_insert X t s c o' x :
  member_ok (mkServer X (<[c := o']> (heap s)) t) x
  = if decide (x = c) then negb (Chan.closed (send o')) else member_ok s x.
Proof.
  unfold member_ok. simpl. destruct (decide (x = c)) as [->|Hne].
  - rewrite lookup_insert_eq. reflexivity.
  - rewrite lookup_insert_ne by congruence. reflexivity.
Qed.

Lemma try_send_open m ch r :
  Chan.try_send m ch = Done r →
  Chan.closed ch = false
  ∧ match r with Some ch' => Chan.closed ch' = false | None => True end.
Proof.
  unfold Chan.try_send. destruct (Chan.closed ch) eqn:E; [discriminate|].
  destruct (Chan.has_room ch); intros [= <-]; simpl; auto.
Qed.

Lemma send_open m ch ch' :
  Chan.send m ch = Done ch' → Chan.closed ch' = false.
Proof.
  unfold Chan.send. destruct (Chan.closed ch) eqn:E; [discriminate|].
  destruct (Chan.has_room ch); [|discriminate]. intros [= <-]. exact E.
Qed.

Lemma unregister_wf c s s' :
  hub_wf s → unregister c s = Done s' → hub_wf s'.
Proof.
  intros Hwf. unfold unregister.
  destruct (decide (c ∈ connections s)) as [Hin|Hout].
  - intros E. apply obind_Done in E as (o & _ & E).
    apply obind_Done in E as (ch & _ & E). injection E as <-.
    intros x Hx. simpl in Hx. rewrite member_ok_insert.
    rewrite decide_False by set_solver. apply Hwf. set_solver.
  - intros [= <-]. exact Hwf.
Qed.

Lemma broadcast_one_wf message c s s' :
  hub_wf s → broadcast_one message c s = Done s' → hub_wf s'.
Proof.
  intros Hwf E. unfold broadcast_one in E.
  apply obind_Done in E as (o & _ & E).
  apply obind_Done in E as (r & Hr & E).
  apply try_send_open in Hr as [_ Hr]. destruct r as [ch|].
  - injection E as <-. intros x Hx. simpl in Hx. rewrite member_ok_insert.
    destruct (decide (x = c)); [simpl; rewrite Hr; reflexivity|apply Hwf, Hx].
  - apply obind_Done in E as (ch & _ & E). injection E as <-.
    intros x Hx. simpl in Hx. rewrite member_ok_insert.
    rewrite decide_False by set_solver. apply Hwf. set_solver.
Qed.

Lemma broadcast_wf message s s' :
  hub_wf s → broadcast message s = Done s' → hub_wf s'.
Proof.
  intros Hwf E. revert Hwf. unfold broadcast in E.
  apply (range_over_rel (λ a b, hub_wf a → hub_wf b)
           (broadcast_one message)) with (keys := elements (connections s));
    [tauto|tauto| |exact E].
  intros c a b Hb Ha. exact (broadcast_one_wf message c a b Ha Hb).
Qed.

Section wf_facts.
Context `{JSON}.

Lemma register_wf c seed s s' :
  hub_wf s → register c seed s = Done s' → hub_wf s'.
Proof.
  intros Hwf E. unfold register in E.
  apply obind_Done in E as (s1 & H1 & E).
  apply obind_Done in E as (o & _ & E).
  apply obind_Done in E as (ch & Hch & E). injection E as <-.
  apply send_open in Hch.
  assert (connections s1 = connections s ∧ hub_wf s1) as [Hc Hwf1].
  { destruct (1 <=? size (connections s)); [|injection H1 as <-; tauto].
    destruct (getExistingConnection seed s) as [e|]; [|injection H1 as <-; tauto].
    unfold notify_and_close in H1.
    apply obind_Done in H1 as (oe & _ & H1).
    apply obind_Done in H1 as (r & Hr & H1). injection H1 as <-.
    split; [reflexivity|]. intros x Hx. simpl in Hx.
    rewrite member_ok_insert.
    destruct (decide (x = e)); [|apply Hwf, Hx].
    apply try_send_open in Hr as [Hopen Hr].
    destruct r as [ch'|]; simpl; [rewrite Hr|rewrite Hopen]; reflexivity. }
  intros x Hx. simpl in Hx. rewrite member_ok_insert.
  destruct (decide (x = c)); [simpl; rewrite Hch; reflexivity|].
  apply Hwf1. set_solver.
Qed.

Lemma Run_wf evs : ∀ s s', hub_wf s → Run evs s = Done s' → hub_wf s'.
Proof.
  induction evs as [|ev evs IH]; intros s s' Hwf E; simpl in E.
  - injection E as <-. exact Hwf.
  - apply obind_Done in E as (s1 & H1 & E). apply (IH s1 s'); [|exact E].
    destruct ev as [c seed|c|m]; simpl in H1.
    + eapply register_wf; eassumption.
    + eapply unregister_wf; eassumption.
    + eapply broadcast_wf; eassumption.
Qed.

Lemma NewWebSocketServer_wf : hub_wf NewWebSocketServer.
Proof. intros c Hc. simpl in Hc. set_solver. Qed.

End wf_facts.

(** ** The read pump *)

Section readPump_facts.
Context `{JSON} {S : Type} `{KeySimulator S}.

Lemma readPump_at_read rs (st : readPump_state S) :
  rp_pc st = AtRead → readPump rs st = readPump_loop rs st.
Proof. intros Hpc. unfold readPump, rp_resume. rewrite Hpc. reflexivity. Qed.

Lemma readPump_continue r rest (st : readPump_state S) :
  rp_pc st = AtRead → rp_pc (rp_iteration r st) = AtRead →
  readPump (r :: rest) st = readPump rest (rp_iteration r st).
Proof.
  intros Hpc Hpc'. rewrite !readPump_at_read by assumption.
  simpl. rewrite Hpc. reflexivity.
Qed.

Lemma readPump_stop r rest (st : readPump_state S) :
  rp_pc st = AtRead → rp_pc (rp_iteration r st) ≠ AtRead →
  readPump (r :: rest) st = rp_iteration r st.
Proof.
  intros Hpc Hpc'. rewrite readPump_at_read by assumption.
  simpl. rewrite Hpc. destruct rest as [|r' rest]; [reflexivity|].
  simpl. destruct (rp_pc (rp_iteration r st)); congruence.
Qed.

Lemma rp_iteration_frame message (st : readPump_state S) :
  conn_closed (conn (rp_connection st)) = false →
  rp_iteration (ReadFrame message) st =
  let st1 := rp_logf (LogReceived message) st in
  match json_Unmarshal message with
  | None => rp_logf LogParseError st1
  | Some keyMsg =>
      match rp_input st1 with
      | Some sim =>
          if String.eqb (Type_ keyMsg) "key"
          then rp_press (Key keyMsg) sim st1
          else st1
      | None => st1
      end
  end.
Proof. intros Hopen. unfold rp_iteration. rewrite Hopen. reflexivity. Qed.

Lemma rp_iteration_key message keyMsg sim (st : readPump_state S) :
  conn_closed (conn (rp_connection st)) = false →
  json_Unmarshal message = Some keyMsg → Type_ keyMsg = "key"%string →
  rp_input st = Some sim →
  rp_iteration (ReadFrame message) st =
  rp_press (Key keyMsg) sim (rp_logf (LogReceived message) st).
Proof.
  intros Hopen Hmsg Htype Hsim. rewrite rp_iteration_frame by exact Hopen.
  simpl. rewrite Hmsg, Hsim, Htype. reflexivity.
Qed.

Lemma rp_press_presses key sim (st : readPump_state S) :
  rp_presses (rp_press key sim st) = rp_presses st ++ [key]
  ∧ rp_input (rp_press key sim st) = Some (snd (PressKey key sim)).
Proof.
  unfold rp_press. destruct (PressKey key sim) as [[e|] sim']; simpl.
  - unfold rp_send. destruct (Chan.send _ _); simpl; split; reflexivity.
  - split; reflexivity.
Qed.

(** C7. A frame that [ReadMessage] returns and that decodes to a message of
    type key makes the read pump, when a sink is installed, call the press
    operation of the sink once, with the key of the frame: the calls
    recorded after the iteration are those before it followed by this one
    key, and the sink is the one that the call left. *)
Theorem key_frame_presses_once (message : string) (keyMsg : KeyMessage)
    (sim : S) (st : readPump_state S) :
  rp_pc st = AtRead →
  conn_closed (conn (rp_connection st)) = false →
  json_Unmarshal message = Some keyMsg → Type_ keyMsg = "key"%string →
  rp_input st = Some sim →
  rp_presses (rp_iteration (ReadFrame message) st)
  = rp_presses st ++ [Key keyMsg]
  ∧ rp_input (rp_iteration (ReadFrame message) st)
    = Some (snd (PressKey (Key keyMsg) sim))
  ∧ ∀ rest, readPump (ReadFrame message :: rest) st
            = readPump_loop rest (rp_iteration (ReadFrame message) st).
Proof.
  intros Hpc Hopen Hmsg Htype Hsim.
  rewrite (rp_iteration_key message keyMsg sim st) by assumption.
  destruct (rp_press_presses (Key keyMsg) sim
              (rp_logf (LogReceived message) st)) as [Hp Hi].
  split; [exact Hp|]. split; [exact Hi|].
  intros rest. rewrite readPump_at_read by exact Hpc. simpl. rewrite Hpc.
  rewrite (rp_iteration_key message keyMsg sim st) by assumption.
  reflexivity.
Qed.

(** C6. A frame that cannot be decoded is logged and the loop goes on: the
    iteration adds two entries to the log, the frame received and the parse
    error, and changes nothing else (the record, the sink, the keys pressed
    and the unregister events submitted are as they were); the pump is back
    at its read, and the frames that follow are processed as they would
    have been; a key frame that follows reaches the sink. *)
Theorem malformed_frame_continues (message : string)
    (st : readPump_state S) :
  rp_pc st = AtRead →
  conn_closed (conn (rp_connection st)) = false →
  json_Unmarshal message = None →
  rp_iteration (ReadFrame message) st
  = rp_logf LogParseError (rp_logf (LogReceived message) st)
  ∧ rp_log (rp_iteration (ReadFrame message) st)
    = rp_log st ++ [LogReceived message; LogParseError]
  ∧ rp_connection (rp_iteration (ReadFrame message) st) = rp_connection st
  ∧ rp_input (rp_iteration (ReadFrame message) st) = rp_input st
  ∧ rp_presses (rp_iteration (ReadFrame message) st) = rp_presses st
  ∧ rp_unregister (rp_iteration (ReadFrame message) st) = rp_unregister st
  ∧ rp_pc (rp_iteration (ReadFrame message) st) = AtRead
  ∧ (∀ rest, readPump (ReadFrame message :: rest) st
             = readPump rest (rp_iteration (ReadFrame message) st))
  ∧ (∀ next keyMsg sim,
       json_Unmarshal next = Some keyMsg → Type_ keyMsg = "key"%string →
       rp_input st = Some sim →
       rp_presses (readPump [ReadFrame message; ReadFrame next] st)
       = rp_presses st ++ [Key keyMsg]).
Proof.
  intros Hpc Hopen Hmsg.
  assert (rp_iteration (ReadFrame message) st
          = rp_logf LogParseError (rp_logf (LogReceived message) st)) as E.
  { rewrite rp_iteration_frame by exact Hopen. simpl. rewrite Hmsg.
    reflexivity. }
  assert (rp_pc (rp_iteration (ReadFrame message) st) = AtRead) as Hpc'.
  { rewrite E. exact Hpc. }
  split; [exact E|].
  split; [rewrite E; unfold rp_logf; simpl; rewrite <- app_assoc; reflexivity|].
  split; [rewrite E; reflexivity|]. split; [rewrite E; reflexivity|].
  split; [rewrite E; reflexivity|]. split; [rewrite E; reflexivity|].
  split; [exact Hpc'|]. split.
  - intros rest. apply readPump_continue; assumption.
  - intros next keyMsg sim Hnext Htype Hsim.
    rewrite readPump_continue by assumption.
    rewrite readPump_at_read by exact Hpc'. simpl. rewrite Hpc'.
    rewrite (rp_iteration_key next keyMsg sim).
    + destruct (rp_press_presses (Key keyMsg) sim
                  (rp_logf (LogReceived next)
                     (rp_iteration (ReadFrame message) st))) as [Hp _].
      rewrite Hp, E. reflexivity.
    + rewrite E. exact Hopen.
    + exact Hnext.
    + exact Htype.
    + rewrite E. exact Hsim.
Qed.

(** C3, as the code has it.  When the sink reports a failure for the key of
    a frame, the read pump sends the error payload to the queue of the
    record with a blocking send.  With room in the queue the payload is
    appended and the pump goes on with the frames that follow.  With a full
    queue nothing is dropped: the pump waits in the send, the queue is
    unchanged, no later frame is processed, and the payload is appended
    once the write pump has taken a message off the queue.  In both cases
    the transport stays open and no unregister event is submitted. *)
Theorem sink_failure_reported (message : string) (keyMsg : KeyMessage)
    (sim sim' : S) (err : string) (st : readPump_state S) :
  rp_pc st = AtRead →
  conn_closed (conn (rp_connection st)) = false →
  json_Unmarshal message = Some keyMsg → Type_ keyMsg = "key"%string →
  rp_input st = Some sim →
  PressKey (Key keyMsg) sim = (Some err, sim') →
  Chan.closed (send (rp_connection st)) = false →
  length (Chan.buf (send (rp_connection st)))
  ≤ Chan.cap (send (rp_connection st)) →
  let st' := rp_iteration (ReadFrame message) st in
  let q := send (rp_connection st) in
  let errorMsg := errorMsg_for (Key keyMsg) in
  conn_closed (conn (rp_connection st')) = false
  ∧ rp_unregister st' = rp_unregister st
  ∧ (if Chan.has_room q
     then rp_pc st' = AtRead
          ∧ send (rp_connection st') = Chan.push errorMsg q
          ∧ Chan.buf (send (rp_connection st')) = Chan.buf q ++ [errorMsg]
          ∧ ∀ rest, readPump (ReadFrame message :: rest) st
                    = readPump rest st'
     else rp_pc st' = AtSend errorMsg
          ∧ send (rp_connection st') = q
          ∧ (∀ rest, readPump (ReadFrame message :: rest) st = st')
          ∧ ∀ m ch, Chan.recv q = Chan.RecvMsg m ch →
              rp_pc (rp_resume (rp_set_send ch st')) = AtRead
              ∧ send (rp_connection (rp_resume (rp_set_send ch st')))
                = Chan.push errorMsg ch
              ∧ Chan.buf
                  (send (rp_connection (rp_resume (rp_set_send ch st'))))
                = Chan.buf ch ++ [errorMsg]).
Proof.
  intros Hpc Hopen Hmsg Htype Hsim Hpress Hq Hcap. simpl.
  rewrite (rp_iteration_key message keyMsg sim st) by assumption.
  assert (rp_press (Key keyMsg) sim (rp_logf (LogReceived message) st)
          = rp_iteration (ReadFrame message) st) as Hit.
  { symmetry. apply rp_iteration_key; assumption. }
  unfold rp_press in *. rewrite Hpress in *. unfold rp_send in *. simpl in *.
  unfold Chan.send in *. rewrite Hq in *.
  destruct (Chan.has_room (send (rp_connection st))) eqn:Hroom; simpl in *.
  - split; [exact Hopen|]. split; [reflexivity|].
    split; [reflexivity|]. split; [reflexivity|]. split; [reflexivity|].
    intros rest. rewrite Hit. apply readPump_continue; [exact Hpc|].
    rewrite <- Hit. reflexivity.
  - split; [exact Hopen|]. split; [reflexivity|].
    split; [reflexivity|]. split; [reflexivity|]. split.
    + intros rest. rewrite Hit. apply readPump_stop; [exact Hpc|].
      rewrite <- Hit. discriminate.
    + intros m ch Hrecv. unfold rp_resume, rp_set_send, rp_send. simpl.
      unfold Chan.recv in Hrecv. unfold Chan.has_room in Hroom.
      apply Nat.ltb_ge in Hroom.
      destruct (Chan.buf (send (rp_connection st))) as [|m0 rest0] eqn:Hbuf.
      { destruct (Chan.closed (send (rp_connection st))); discriminate. }
      injection Hrecv as <- <-. unfold Chan.send, Chan.has_room. simpl.
      rewrite Hq. simpl in Hroom, Hcap.
      assert ((length rest0 <? Chan.cap (send (rp_connection st))) = true)
        as -> by (apply Nat.ltb_lt; lia).
      split; [reflexivity|]. split; reflexivity.
Qed.

(** Once the transport has been closed on this side, the next read fails and
    the pump returns through its deferred function. *)
Lemma readPump_sees_closed_transport r (st : readPump_state S) :
  conn_closed (conn (rp_connection st)) = true →
  rp_pc (rp_iteration r st) = Returned
  ∧ rp_unregister (rp_iteration r st) = Datatypes.S (rp_unregister st).
Proof.
  intros Hclosed. unfold rp_iteration. rewrite Hclosed. split; reflexivity.
Qed.

End readPump_facts.

Lemma key_frame_presses_once_witness :
  rp_presses
    (@rp_iteration codec keySimulator
       (@keySimulator_sink (runtime_on "linux"))
       (ReadFrame (key_frame "5")) linux_pump)
  = rp_presses linux_pump ++ ["5"%string].
Proof.
  destruct (@key_frame_presses_once codec keySimulator
              (@keySimulator_sink (runtime_on "linux"))
              (key_frame "5") (mkKeyMessage "5" "key") NewKeySimulator
              linux_pump) as (Hw & _ & _).
  - reflexivity.
  - reflexivity.
  - vm_compute. reflexivity.
  - reflexivity.
  - reflexivity.
  - exact Hw.
Defined.

Lemma malformed_frame_continues_witness :
  rp_log (@rp_iteration codec unit failing_sink (ReadFrame "not json")
            failing_pump)
  = [LogReceived "not json"; LogParseError]
  ∧ rp_pc (@rp_iteration codec unit failing_sink (ReadFrame "not json")
             failing_pump) = AtRead
  ∧ rp_presses
      (@readPump codec unit failing_sink
         [ReadFrame "not json"; ReadFrame (key_frame "5")] failing_pump)
    = rp_presses failing_pump ++ ["5"%string].
Proof.
  destruct (@malformed_frame_continues codec unit failing_sink "not json"
              failing_pump) as (_ & Hlog & _ & _ & _ & _ & Hpc & _ & Hnext).
  - reflexivity.
  - reflexivity.
  - vm_compute. reflexivity.
  - split; [exact Hlog|]. split; [exact Hpc|].
    apply (Hnext (key_frame "5") (mkKeyMessage "5" "key") tt).
    + vm_compute. reflexivity.
    + reflexivity.
    + reflexivity.
Defined.

Lemma sink_failure_reported_witness :
  conn_closed
    (conn (rp_connection
             (@rp_iteration codec unit failing_sink
                (ReadFrame (key_frame "x")) failing_pump))) = false
  ∧ send (rp_connection
            (@rp_iteration codec unit failing_sink
               (ReadFrame (key_frame "x")) failing_pump))
    = Chan.push (@errorMsg_for codec "x") (send newConnection)
  ∧ Chan.buf
      (send (rp_connection
               (@rp_iteration codec unit failing_sink
                  (ReadFrame (key_frame "x")) failing_pump)))
    = [@errorMsg_for codec "x"].
Proof.
  destruct (@sink_failure_reported codec unit failing_sink
              (key_frame "x") (mkKeyMessage "x" "key") tt tt
              "injection failed" failing_pump)
    as (Hopen & _ & Hsend).
  - reflexivity.
  - reflexivity.
  - vm_compute. reflexivity.
  - reflexivity.
  - reflexivity.
  - reflexivity.
  - reflexivity.
  - simpl. lia.
  - split; [exact Hopen|]. split; apply Hsend.
Defined.

(** C3, as stated, fails: with a full queue the payload is not dropped and
    the pump does not go on to the next frame; it waits in the send. *)
Lemma drop_if_full_counterexample :
  Chan.has_room (send (rp_connection full_pump)) = false
  ∧ ¬ (let st := @readPump codec unit failing_sink
                   [ReadFrame (key_frame "x"); ReadFrame (key_frame "y")]
                   full_pump in
       rp_pc st = AtRead ∧ rp_presses st = ["x"%string; "y"%string])
  ∧ rp_pc (@readPump codec unit failing_sink
             [ReadFrame (key_frame "x"); ReadFrame (key_frame "y")]
             full_pump)
    = AtSend (@errorMsg_for codec "x").
Proof.
  split; [vm_compute; reflexivity|]. split.
  - intros [Hpc _]. vm_compute in Hpc. discriminate.
  - vm_compute. reflexivity.
Qed.

(** ** Shutdown and the write pump *)

Lemma writePump_sees_closed which net_ok (o : Connection) :
  conn_closed (conn o) = true → Chan.closed (send o) = true →
  ∃ o', writePump_step which net_ok o = Some (WPReturned, o').
Proof.
  intros Hconn Hsend. destruct which; unfold writePump_step.
  - unfold Chan.recv. destruct (Chan.buf (send o)) as [|m rest].
    + rewrite Hsend. eexists. reflexivity.
    + unfold conn_WriteMessage. simpl. rewrite Hconn. eexists. reflexivity.
  - unfold conn_WriteMessage. rewrite Hconn. eexists. reflexivity.
Qed.

Section shutdown_facts.
Context `{JSON} {S : Type} `{KeySimulator S}.

(** X21. From any state in which the members have open queues, [Shutdown]
    returns with an empty map; every record that was a member has its
    queue closed and its transport closed, each once.  The write pump of
    such a record is not blocked and returns at its next step, whichever
    case of its select runs (it receives from the closed queue, or a write
    on the closed transport fails), and the read pump of such a record,
    waiting in its read, gets a read error and returns. *)
Theorem Shutdown_closes_all (s : WebSocketServer) :
  hub_wf s →
  ∃ s', Shutdown s = Done s'
    ∧ connections s' = ∅
    ∧ (∀ c, c ∈ connections s →
         ∃ o, heap s !! c = Some o
           ∧ heap s' !! c = Some (after_shutdown o)
           ∧ Chan.closed (send (after_shutdown o)) = true
           ∧ conn_closed (conn (after_shutdown o)) = true
           ∧ (∀ which net_ok,
                ∃ o', writePump_step which net_ok (after_shutdown o)
                      = Some (WPReturned, o'))
           ∧ (∀ r (st : readPump_state S),
                rp_connection st = after_shutdown o →
                rp_pc (rp_iteration r st) = Returned))
    ∧ trace s' =
      trace s
      ++ effects_of (λ c _, [ChanClosed c; ConnClosed c]) s
           (elements (connections s)).
Proof.
  intros Hwf.
  destruct (range_over_spec shutdown_one after_shutdown (λ _, false)
              (λ c _, [ChanClosed c; ConnClosed c]) shutdown_one_spec
              (elements (connections s)) s)
    as (s' & Hrun & Hconn & Hheap & Htrace).
  { apply NoDup_elements. }
  { intros c Hc. apply Hwf, elem_of_elements, Hc. }
  exists s'. split; [exact Hrun|]. split; [|split; [|exact Htrace]].
  - apply elem_of_equiv_empty_L. intros c Hc.
    apply Hconn in Hc as [Hc Hno]. apply Hno.
    split; [apply elem_of_elements, Hc|].
    destruct (member_ok_lookup s c (Hwf _ Hc)) as (o & Ho & _). eauto.
  - intros c Hc.
    destruct (member_ok_lookup s c (Hwf _ Hc)) as (o & Ho & _).
    exists o. split; [exact Ho|]. split.
    { rewrite Hheap, decide_True by (apply elem_of_elements, Hc).
      rewrite Ho. reflexivity. }
    split; [reflexivity|]. split; [reflexivity|]. split.
    + intros which net_ok. apply writePump_sees_closed; reflexivity.
    + intros r st Hst. apply readPump_sees_closed_transport.
      rewrite Hst. reflexivity.
Qed.

End shutdown_facts.

Lemma Shutdown_closes_all_witness :
  ∃ s', Shutdown one_member = Done s' ∧ connections s' = ∅.
Proof.
  destruct (@Shutdown_closes_all codec unit failing_sink one_member
              one_member_wf) as (s' & Hrun & Hempty & _).
  exists s'. split; assumption.
Defined.

Section shutdown_sender.
Context `{JSON} {S : Type} `{KeySimulator S}.

(** C9, where the code misses it.  [Shutdown] closes the queue of every
    member while the read pump of that member may still be running.  A
    read pump that is waiting in [connection.send <- errorMsg] at that
    moment (the sink failed and the queue was full) is woken by the close
    of its queue and panics with a send on a closed channel: it does not
    observe the closed transport and return.  The unregister case closes a
    queue only after the read pump of the record has ended. *)
Theorem Shutdown_panics_waiting_sender (s : WebSocketServer) (c : ptr)
    (o : Connection) :
  hub_wf s → c ∈ connections s → heap s !! c = Some o →
  ∃ s' o', Shutdown s = Done s'
    ∧ heap s' !! c = Some o'
    ∧ Chan.closed (send o') = true
    ∧ Chan.buf (send o') = Chan.buf (send o)
    ∧ ∀ (st : readPump_state S) (errorMsg : string),
        rp_connection st = o' → rp_pc st = AtSend errorMsg →
        rp_pc (rp_resume st) = Panicked
        ∧ rp_pc (readPump [] st) = Panicked.
Proof.
  intros Hwf Hc Ho.
  destruct (range_over_spec shutdown_one after_shutdown (λ _, false)
              (λ c _, [ChanClosed c; ConnClosed c]) shutdown_one_spec
              (elements (connections s)) s)
    as (s' & Hrun & _ & Hheap & _).
  { apply NoDup_elements. }
  { intros x Hx. apply Hwf, elem_of_elements, Hx. }
  exists s', (after_shutdown o). split; [exact Hrun|]. split.
  { rewrite Hheap, decide_True by (apply elem_of_elements, Hc).
    rewrite Ho. reflexivity. }
  split; [reflexivity|]. split; [reflexivity|].
  intros st errorMsg Hst Hpc.
  assert (rp_pc (rp_resume st) = Panicked) as Hpanic.
  { unfold rp_resume. rewrite Hpc. unfold rp_send, Chan.send.
    rewrite Hst. reflexivity. }
  split; [exact Hpanic|]. unfold readPump. simpl. exact Hpanic.
Qed.

End shutdown_sender.

Lemma Shutdown_panics_waiting_sender_witness :
  rp_pc (@readPump codec unit failing_sink [ReadFrame (key_frame "x")]
           full_pump)
  = AtSend (@errorMsg_for codec "x")
  ∧ ∃ s' o', Shutdown full_member = Done s'
      ∧ heap s' !! 7 = Some o'
      ∧ Chan.closed (send o') = true
      ∧ rp_pc (@rp_resume unit
                 (mkReadPump o' (Some tt) (AtSend (@errorMsg_for codec "x"))
                    ["x"%string] [] 0))
        = Panicked.
Proof.
  split; [vm_compute; reflexivity|].
  destruct (@Shutdown_panics_waiting_sender codec unit failing_sink
              full_member 7 full_connection full_member_wf)
    as (s' & o' & Hrun & Ho' & Hclosed & _ & Hpump).
  - change (7 ∈ ({[7]} : gset nat)). set_solver.
  - vm_compute. reflexivity.
  - exists s', o'. split; [exact Hrun|]. split; [exact Ho'|].
    split; [exact Hclosed|].
    apply (Hpump (mkReadPump o' (Some tt) (AtSend (@errorMsg_for codec "x"))
                    ["x"%string] [] 0) (@errorMsg_for codec "x"));
      reflexivity.
Defined.

(** ** The key simulator *)

Section simulator_facts.
Context `{GoRuntime} `{JSON}.

Lemma supported_PressKey key (k : keySimulator) :
  runtime_GOOS = "linux"%string ∨ runtime_GOOS = "windows"%string →
  PressKey key k = (None, robotgo_KeyTap (mapped key) k).
Proof.
  unfold PressKey, keySimulator_sink, keySimulator_PressKey.
  intros [-> | ->]; reflexivity.
Qed.

Lemma supported_iteration r (st : readPump_state keySimulator) :
  runtime_GOOS = "linux"%string ∨ runtime_GOOS = "windows"%string →
  rp_pc st = AtRead →
  send (rp_connection (rp_iteration r st)) = send (rp_connection st)
  ∧ (rp_pc (rp_iteration r st) = AtRead
     ∨ rp_pc (rp_iteration r st) = Returned).
Proof.
  intros Hos Hpc. unfold rp_iteration.
  destruct (conn_closed (conn (rp_connection st))).
  { simpl. split; [reflexivity|right; reflexivity]. }
  destruct r as [message|unexpected].
  - destruct (json_Unmarshal message) as [keyMsg|]; simpl.
    + destruct (rp_input st) as [sim|]; simpl.
      * destruct (String.eqb (Type_ keyMsg) "key"); simpl.
        -- unfold rp_press. rewrite (supported_PressKey _ _ Hos). simpl.
           split; [reflexivity|left; exact Hpc].
        -- split; [reflexivity|left; exact Hpc].
      * split; [reflexivity|left; exact Hpc].
    + split; [reflexivity|left; exact Hpc].
  - destruct unexpected; simpl; split; try reflexivity; right; reflexivity.
Qed.

Lemma supported_loop rs : ∀ st : readPump_state keySimulator,
  runtime_GOOS = "linux"%string ∨ runtime_GOOS = "windows"%string →
  rp_pc st = AtRead ∨ rp_pc st = Returned →
  send (rp_connection (readPump_loop rs st)) = send (rp_connection st)
  ∧ (rp_pc (readPump_loop rs st) = AtRead
     ∨ rp_pc (readPump_loop rs st) = Returned).
Proof.
  induction rs as [|r rs IH]; intros st Hos Hpc; simpl.
  - split; [reflexivity|exact Hpc].
  - destruct Hpc as [Hpc|Hpc]; rewrite Hpc.
    + destruct (supported_iteration r st Hos Hpc) as [Hq Hpc'].
      destruct (IH (rp_iteration r st) Hos Hpc') as [Hq' Hpc''].
      split; [congruence|exact Hpc''].
    + split; [reflexivity|right; exact Hpc].
Qed.

(** C10. [PressKey] of the built-in simulator returns an error exactly when
    [runtime.GOOS] is neither linux nor windows.  On linux and windows it
    returns nil for every key, after one call of [robotgo.KeyTap] with the
    entry of the key table for the lowercased key, or with the key as it
    was given when the table has no such entry.  With this simulator on
    linux or windows the read pump never sends an error payload: whatever
    frames arrive, the queue of the record is as it was and the pump is at
    its read or has returned. *)
Theorem PressKey_fails_iff_unsupported (key : string) (k : keySimulator) :
  ((∃ e, fst (PressKey key k) = Some e)
   ↔ runtime_GOOS ≠ "linux"%string ∧ runtime_GOOS ≠ "windows"%string)
  ∧ (runtime_GOOS = "linux"%string ∨ runtime_GOOS = "windows"%string →
     PressKey key k = (None, mkKeySimulator (taps k ++ [mapped key]))
     ∧ (keyMap !! strings_ToLower key = None → mapped key = key)
     ∧ (∀ mappedKey, keyMap !! strings_ToLower key = Some mappedKey →
                     mapped key = mappedKey)
     ∧ ∀ rs (st : readPump_state keySimulator),
         rp_pc st = AtRead →
         send (rp_connection (readPump rs st)) = send (rp_connection st)
         ∧ (rp_pc (readPump rs st) = AtRead
            ∨ rp_pc (readPump rs st) = Returned)).
Proof.
  split.
  - unfold PressKey, keySimulator_sink, keySimulator_PressKey.
    destruct (String.eqb_spec runtime_GOOS "linux") as [E1|N1].
    { split; [intros [e He]; discriminate|intros [N _]; contradiction]. }
    destruct (String.eqb_spec runtime_GOOS "windows") as [E2|N2].
    { split; [intros [e He]; discriminate|intros [_ N]; contradiction]. }
    split; [intros _; split; assumption|intros _; eexists; reflexivity].
  - intros Hos. split; [apply supported_PressKey, Hos|].
    split; [|split].
    + unfold mapped. intros ->. reflexivity.
    + unfold mapped. intros mappedKey ->. reflexivity.
    + intros rs st Hpc. rewrite readPump_at_read by exact Hpc.
      apply supported_loop; [exact Hos|left; exact Hpc].
Qed.

End simulator_facts.

Lemma PressKey_fails_iff_unsupported_witness :
  @PressKey keySimulator (@keySimulator_sink (runtime_on "linux")) "Enter"
    NewKeySimulator
  = (None, mkKeySimulator ["kp_enter"%string]).
Proof.
  destruct (@PressKey_fails_iff_unsupported (runtime_on "linux") codec
              "Enter" NewKeySimulator) as [_ Hsup].
  destruct Hsup as (Hpress & _); [left; reflexivity|].
  rewrite Hpress. vm_compute. reflexivity.
Defined.

Example keyMap_entries :
  map (λ key, @mapped (runtime_on "linux") key)
    ["0"; "9"; "*"; "+"; "-"; "."; "/"; "enter"; "ENTER"; "backspace";
     "Escape"; "x"; "Tab"]%string
  = ["kp_0"; "kp_9"; "kp_multiply"; "kp_add"; "kp_subtract"; "kp_decimal";
     "kp_divide"; "kp_enter"; "kp_enter"; "backspace"; "escape"; "x";
     "Tab"]%string.
Proof. vm_compute. reflexivity. Qed.

Example unsupported_os :
  @PressKey keySimulator (@keySimulator_sink (runtime_on "darwin")) "5"
    NewKeySimulator
  = (Some "unsupported operating system: darwin"%string, NewKeySimulator).
Proof. vm_compute. reflexivity. Qed.

(** ** The page *)

Section page_facts.
Context `{JSParse}.

Lemma connectWebSocket_fields ok p :
  reconnectAttempts (connectWebSocket ok p) = reconnectAttempts p
  ∧ maxReconnectAttempts (connectWebSocket ok p) = maxReconnectAttempts p
  ∧ reconnectDelay (connectWebSocket ok p) = reconnectDelay p
  ∧ wasReplaced (connectWebSocket ok p) = wasReplaced p
  ∧ timers (connectWebSocket ok p) = timers p
  ∧ connected (connectWebSocket ok p) = connected p.
Proof.
  unfold connectWebSocket. destruct (connecting p), ok; simpl; tauto.
Qed.

Lemma handleWebSocketMessage_fields data p :
  reconnectAttempts (handleWebSocketMessage data p) = reconnectAttempts p
  ∧ maxReconnectAttempts (handleWebSocketMessage data p)
    = maxReconnectAttempts p
  ∧ reconnectDelay (handleWebSocketMessage data p) = reconnectDelay p
  ∧ timers (handleWebSocketMessage data p) = timers p
  ∧ wasReplaced (handleWebSocketMessage data p)
    = match JSON_parse data with
      | Some m => wasReplaced p || is_eviction m
      | None => wasReplaced p
      end.
Proof.
  unfold handleWebSocketMessage, is_eviction.
  destruct (JSON_parse data) as [m|]; [|tauto].
  destruct (bool_decide (status m = Some "connected"%string)) eqn:E1.
  - apply bool_decide_eq_true in E1.
    rewrite (bool_decide_eq_false_2 (status m = Some "disconnected"%string))
      by (rewrite E1; discriminate).
    simpl. rewrite orb_false_r. tauto.
  - destruct (bool_decide (status m = Some "disconnected"%string)); simpl.
    + destruct (bool_decide (reason m = _)); simpl;
        rewrite ?orb_true_r, ?orb_false_r; tauto.
    + rewrite orb_false_r. tauto.
Qed.

Lemma page_step_inv p ev : page_inv p → page_inv (page_step p ev).
Proof.
  intros (Hmax & Hdelay & Hle). unfold page_inv.
  destruct ev as [|data| | |ok|ok]; simpl.
  - repeat split; simpl; try assumption; lia.
  - destruct (handleWebSocketMessage_fields data p) as (-> & -> & -> & _).
    tauto.
  - unfold onclose. simpl. destruct (wasReplaced p); simpl; [tauto|].
    unfold attemptReconnect. simpl. rewrite Hmax.
    destruct (reconnectAttempts p <? 5) eqn:Hlt; simpl; [|tauto].
    apply Nat.ltb_lt in Hlt. repeat split; try assumption; lia.
  - tauto.
  - destruct (fired p <? length (timers p)); [|tauto].
    destruct (connectWebSocket_fields ok (timer_fired p))
      as (-> & -> & -> & _). simpl. tauto.
  - destruct (negb (connected p) && (reconnectAttempts p =? 0)); [|tauto].
    destruct (connectWebSocket_fields ok p) as (-> & -> & -> & _). tauto.
Qed.

Lemma page_run_inv evs : ∀ p, page_inv p → page_inv (page_run evs p).
Proof.
  induction evs as [|ev evs IH]; intros p Hp; simpl; [exact Hp|].
  apply IH, page_step_inv, Hp.
Qed.

Lemma new_NumpadKeyboard_inv ok : page_inv (new_NumpadKeyboard ok).
Proof. destruct ok; repeat split; simpl; lia. Qed.

Lemma page_step_wasReplaced p ev :
  wasReplaced (page_step p ev)
  = match ev with
    | WsMessage data =>
        match JSON_parse data with
        | Some m => wasReplaced p || is_eviction m
        | None => wasReplaced p
        end
    | WsClose => false
    | _ => wasReplaced p
    end.
Proof.
  destruct ev as [|data| | |ok|ok]; simpl; try reflexivity.
  - apply handleWebSocketMessage_fields.
  - unfold onclose. simpl. destruct (wasReplaced p) eqn:E; simpl.
    + reflexivity.
    + unfold attemptReconnect.
      destruct (_ <? _); simpl; exact E.
  - destruct (fired p <? length (timers p)); [|reflexivity].
    destruct (connectWebSocket_fields ok (timer_fired p))
      as (_ & _ & _ & -> & _). reflexivity.
  - destruct (negb (connected p) && (reconnectAttempts p =? 0));
      [|reflexivity].
    destruct (connectWebSocket_fields ok p) as (_ & _ & _ & -> & _).
    reflexivity.
Qed.

Lemma page_run_wasReplaced evs : ∀ p b,
  wasReplaced p = b →
  wasReplaced (page_run evs p)
  = fold_left
      (λ b ev,
         match ev with
         | WsMessage data =>
             match JSON_parse data with
             | Some m => b || is_eviction m
             | None => b
             end
         | WsClose => false
         | _ => b
         end) evs b.
Proof.
  induction evs as [|ev evs IH]; intros p b Hb; simpl; [exact Hb|].
  apply IH. rewrite page_step_wasReplaced, Hb. reflexivity.
Qed.

Lemma new_NumpadKeyboard_wasReplaced ok :
  wasReplaced (new_NumpadKeyboard ok) = false.
Proof. destruct ok; reflexivity. Qed.

(** A quiet event leaves the flag, and an eviction notice sets it. *)
Lemma quiet_keeps_flag post : ∀ p,
  forallb quiet post = true → wasReplaced p = true →
  wasReplaced (page_run post p) = true.
Proof.
  induction post as [|ev post IH]; intros p Hq Hp; simpl; [exact Hp|].
  simpl in Hq. apply andb_prop in Hq as [Hev Hq]. apply IH; [exact Hq|].
  rewrite page_step_wasReplaced. destruct ev; try discriminate; exact Hp.
Qed.

(** Between two opens every reconnection that is scheduled is counted. *)
Lemma page_step_counts p ev :
  not_open ev = true →
  length (timers (page_step p ev)) + reconnectAttempts p
  = length (timers p) + reconnectAttempts (page_step p ev).
Proof.
  destruct ev as [|data| | |ok|ok]; simpl; intros Hno;
    try discriminate; try reflexivity.
  - destruct (handleWebSocketMessage_fields data p) as (-> & _ & _ & -> & _).
    reflexivity.
  - unfold onclose. simpl. destruct (wasReplaced p); simpl; [reflexivity|].
    unfold attemptReconnect. simpl.
    destruct (_ <? _); simpl; [|reflexivity].
    rewrite length_app. simpl. lia.
  - destruct (fired p <? length (timers p)); [|reflexivity].
    destruct (connectWebSocket_fields ok (timer_fired p))
      as (-> & _ & _ & _ & -> & _). reflexivity.
  - destruct (negb (connected p) && (reconnectAttempts p =? 0));
      [|reflexivity].
    destruct (connectWebSocket_fields ok p) as (-> & _ & _ & _ & -> & _).
    reflexivity.
Qed.

Lemma page_run_counts evs : ∀ p,
  forallb not_open evs = true →
  length (timers (page_run evs p)) + reconnectAttempts p
  = length (timers p) + reconnectAttempts (page_run evs p).
Proof.
  induction evs as [|ev evs IH]; intros p Hno; simpl; [reflexivity|].
  simpl in Hno. apply andb_prop in Hno as [Hev Hno].
  pose proof (IH (page_step p ev) Hno). pose proof (page_step_counts p ev Hev).
  lia.
Qed.

Lemma page_run_app evs evs' p :
  page_run (evs ++ evs') p = page_run evs' (page_run evs p).
Proof. apply fold_left_app. Qed.

End page_facts.

Section reconnection.
Context `{JSParse}.

(** C8, as the code has it.  After any history of the page: the attempt
    counter is at most 5, and at most 5 reconnections are scheduled over
    any run of events without a successful open.  At a close, if an
    eviction notice has arrived since the previous close (in particular
    when it is the last payload received, but also when other payloads
    followed it), no reconnection is scheduled, no socket is opened and the
    flag is cleared.  If none has arrived, then with fewer than 5 attempts
    made one reconnection is scheduled, with a delay of 2000ms, and the
    counter goes up by one; with 5 attempts made nothing is scheduled, the
    status becomes Connection failed, and a focus event changes nothing. *)
Theorem reconnection_policy (ctor_ok : bool) (evs : list page_event) :
  let p := page_run evs (new_NumpadKeyboard ctor_ok) in
  reconnectAttempts p ≤ 5
  ∧ (∀ more, forallb not_open more = true →
       length (timers (page_run more p)) ≤ length (timers p) + 5)
  ∧ (∀ pre data m post,
       evs = pre ++ WsMessage data :: post →
       JSON_parse data = Some m → is_eviction m = true →
       forallb quiet post = true →
       evicted_since_close evs = true)
  ∧ (evicted_since_close evs = true →
       timers (onclose p) = timers p
       ∧ sockets (onclose p) = sockets p
       ∧ reconnectAttempts (onclose p) = reconnectAttempts p
       ∧ wasReplaced (onclose p) = false
       ∧ status_text (onclose p) = "Disconnected"%string)
  ∧ (evicted_since_close evs = false → reconnectAttempts p < 5 →
       timers (onclose p) = timers p ++ [2000]
       ∧ sockets (onclose p) = sockets p
       ∧ reconnectAttempts (onclose p) = Datatypes.S (reconnectAttempts p))
  ∧ (evicted_since_close evs = false → reconnectAttempts p = 5 →
       timers (onclose p) = timers p
       ∧ sockets (onclose p) = sockets p
       ∧ status_text (onclose p) = "Connection failed"%string
       ∧ ∀ ok, page_step (onclose p) (WindowFocus ok) = onclose p).
Proof.
  intros p.
  pose proof (page_run_inv evs _ (new_NumpadKeyboard_inv ctor_ok))
    as (Hmax & Hdelay & Hle). fold p in Hmax, Hdelay, Hle.
  assert (wasReplaced p = evicted_since_close evs) as Hflag.
  { apply page_run_wasReplaced, new_NumpadKeyboard_wasReplaced. }
  split; [exact Hle|]. split; [|split; [|split; [|split]]].
  - intros more Hmore.
    pose proof (page_run_counts more p Hmore) as Hcount.
    assert (page_inv (page_run more p)) as (_ & _ & Hle').
    { apply page_run_inv. repeat split; assumption. }
    lia.
  - intros pre data m post -> Hparse Hev Hquiet.
    rewrite <- Hflag. unfold p. rewrite page_run_app. simpl.
    apply quiet_keeps_flag; [exact Hquiet|].
    destruct (handleWebSocketMessage_fields data
                (page_run pre (new_NumpadKeyboard ctor_ok)))
      as (_ & _ & _ & _ & ->).
    rewrite Hparse, Hev. apply orb_true_r.
  - intros Hev. rewrite <- Hflag in Hev. unfold onclose. simpl.
    rewrite Hev. simpl. repeat split; reflexivity.
  - intros Hev Hlt. rewrite <- Hflag in Hev. unfold onclose. simpl.
    rewrite Hev. unfold attemptReconnect. simpl. rewrite Hmax.
    apply Nat.ltb_lt in Hlt. rewrite Hlt. simpl. rewrite Hdelay.
    repeat split; reflexivity.
  - intros Hev Hfive. rewrite <- Hflag in Hev. unfold onclose. simpl.
    rewrite Hev. unfold attemptReconnect. simpl. rewrite Hmax, Hfive. simpl.
    split; [reflexivity|]. split; [reflexivity|]. split; [reflexivity|].
    intros ok. rewrite Hfive. reflexivity.
Qed.

End reconnection.

Lemma reconnection_policy_witness :
  timers (onclose (@page_run page_parse [WsOpen; WsError]
                     (new_NumpadKeyboard true)))
  = [2000].
Proof.
  destruct (@reconnection_policy page_parse true [WsOpen; WsError])
    as (_ & _ & _ & _ & Hretry & _).
  destruct Hretry as (Ht & _ & _).
  - reflexivity.
  - simpl. lia.
  - exact Ht.
Defined.

(** C8, as stated, fails: the last payload received before the close is
    not an eviction notice and attempts remain, yet the close schedules no
    reconnection, because an eviction notice arrived earlier. *)
Lemma last_payload_counterexample :
  let p := @page_run page_parse evicted_then_error (new_NumpadKeyboard true) in
  page_parse (@errorMsg_for codec "x") = Some (mkPayload None None)
  ∧ is_eviction (mkPayload None None) = false
  ∧ reconnectAttempts p < 5
  ∧ ¬ (timers (onclose p) = timers p ++ [2000])
  ∧ timers (onclose p) = []
  ∧ status_text (onclose p) ≠ "Connection failed"%string.
Proof.
  vm_compute. split; [reflexivity|]. split; [reflexivity|].
  split; [lia|]. split; [discriminate|]. split; [reflexivity|discriminate].
Qed.

(** * Further properties *)

(** ** The hub *)

Section hub_more.
Context `{JSON}.

(** X1. The safety invariant of the hub: along every run of [Run] that
    returns, from a state in which every member of the map is an allocated
    record with an open queue, every member of the map is again such a
    record.  A queue is closed only in the same step that deletes its
    entry, so a send to a member cannot panic. *)
Theorem Run_keeps_queues_open (evs : list event) (s s' : WebSocketServer) :
  hub_wf s → Run evs s = Done s' →
  ∀ c, c ∈ connections s' →
    ∃ o, heap s' !! c = Some o ∧ Chan.closed (send o) = false.
Proof.
  intros Hwf E c Hc. apply member_ok_lookup.
  exact (Run_wf evs s s' Hwf E c Hc).
Qed.

(** X2. [getExistingConnection] returns nil exactly when the map is empty,
    and what it returns otherwise is a member of the map. *)
Theorem getExistingConnection_nil_iff_empty (seed : nat)
    (s : WebSocketServer) :
  (getExistingConnection seed s = None ↔ connections s = ∅)
  ∧ (∀ e, getExistingConnection seed s = Some e → e ∈ connections s).
Proof.
  split.
  - split.
    + intros E. destruct (decide (connections s = ∅)) as [Hs|Hs]; [exact Hs|].
      destruct (getExistingConnection_some seed s Hs) as [e He]. congruence.
    + intros E. unfold getExistingConnection. rewrite E.
      rewrite elements_empty. reflexivity.
  - intros e. apply getExistingConnection_member.
Qed.

Lemma handleWebSocket_spec seed s :
  hub_wf s →
  let c := fresh (dom (heap s)) in
  ∃ s', handleWebSocket seed s = Done s'
    ∧ hub_wf s'
    ∧ (c ∉ connections s)
    ∧ connections s' = {[c]} ∪ connections s
    ∧ heap s' !! c
      = Some (with_send (Chan.push welcomeMsg (Chan.make 256)) newConnection).
Proof.
  intros Hwf c. unfold handleWebSocket. fold c.
  set (s0 := mkServer (connections s) (<[c := newConnection]> (heap s))
               (trace s)).
  assert (heap s !! c = None) as Hfresh.
  { apply not_elem_of_dom. apply is_fresh. }
  assert (c ∉ connections s) as Hnew.
  { intros Hc. destruct (member_ok_lookup s c (Hwf c Hc)) as (o & Ho & _).
    congruence. }
  assert (hub_wf s0) as Hwf0.
  { intros x Hx. unfold s0. rewrite member_ok_insert.
    rewrite decide_False by (intros ->; contradiction). apply Hwf, Hx. }
  assert (heap s0 !! c = Some newConnection) as Hc0.
  { apply lookup_insert_eq. }
  destruct (decide (connections s = ∅)) as [Hempty|Hne].
  - pose proof (register_first c seed s0 newConnection Hempty Hc0 eq_refl
                  eq_refl) as Hreg.
    eexists. split; [exact Hreg|]. split; [|split; [exact Hnew|split]].
    + eapply register_wf; [exact Hwf0|exact Hreg].
    + simpl. rewrite Hempty. set_solver.
    + simpl. apply lookup_insert_eq.
  - destruct (register_next c seed s0 newConnection Hwf0 Hne Hnew Hc0 eq_refl
                eq_refl) as (e & oe & _ & _ & _ & Hreg).
    eexists. split; [exact Hreg|]. split; [|split; [exact Hnew|split]].
    + eapply register_wf; [exact Hwf0|exact Hreg].
    + reflexivity.
    + simpl. apply lookup_insert_eq.
Qed.

Lemma serve_step_wf a s :
  hub_wf s → ∃ s', serve_step a s = Done s' ∧ hub_wf s'.
Proof.
  intros Hwf. destruct a as [[|] seed|c|m]; simpl.
  - destruct (handleWebSocket_spec seed s Hwf) as (s' & E & Hwf' & _).
    eauto.
  - eauto.
  - destruct (decide (c ∈ connections s)) as [Hin|Hout].
    + destruct (member_ok_lookup s c (Hwf c Hin)) as (o & Ho & Hopen).
      eexists. split; [apply (unregister_member c s o Hin Ho Hopen)|].
      eapply unregister_wf; [exact Hwf|].
      apply (unregister_member c s o Hin Ho Hopen).
    + exists s. split; [apply unregister_not_member, Hout|exact Hwf].
  - destruct (range_over_spec (broadcast_one m) (after_broadcast m)
                (λ o, Chan.has_room (send o)) (broadcast_effects m)
                (broadcast_one_spec m) (elements (connections s)) s)
      as (s' & Hrun & _).
    { apply NoDup_elements. }
    { intros c Hc. apply Hwf, elem_of_elements, Hc. }
    exists s'. split; [exact Hrun|].
    eapply broadcast_wf; [exact Hwf|exact Hrun].
Qed.

(** X3. The hub never fails: whatever requests, pump exits and broadcasts
    arrive at a new server, in whatever order, every one of them is
    processed to the end (no case of [Run] blocks and none panics), and in
    the state reached every member of the map has an open queue. *)
Theorem hub_never_fails (arrivals : list arrival) :
  ∃ s', serve arrivals NewWebSocketServer = Done s' ∧ hub_wf s'.
Proof.
  assert (∀ l s, hub_wf s → ∃ s', serve l s = Done s' ∧ hub_wf s') as Hgen.
  { induction l as [|a l IH]; intros s Hwf; simpl.
    - eauto.
    - destruct (serve_step_wf a s Hwf) as (s1 & -> & Hwf1). simpl.
      apply IH, Hwf1. }
  apply Hgen. intros c Hc. simpl in Hc. set_solver.
Qed.

End hub_more.

Lemma Run_keeps_queues_open_witness :
  ∃ s', Run (H:=codec) [EvRegister 0 0; EvRegister 1 0] two_records = Done s'
    ∧ ∀ c, c ∈ connections s' →
        ∃ o, heap s' !! c = Some o ∧ Chan.closed (send o) = false.
Proof.
  eexists. split; [vm_compute; reflexivity|].
  apply (Run_keeps_queues_open (H:=codec) [EvRegister 0 0; EvRegister 1 0]
           two_records).
  - apply hub_wfb_spec. vm_compute. reflexivity.
  - vm_compute. reflexivity.
Defined.

Section eviction.
Context `{JSON}.

(** X4. Eviction runs to its end when the unregister event of the
    incumbent arrives.  With record [a] alone in the map, the register event
    of a new record [b] followed by the unregister event of [a] leaves [b]
    alone in the map, welcomed; the transport of [a] is closed and its
    queue is closed, holding what it held plus the eviction notice when
    there was room for it. *)
Theorem eviction_completes (s : WebSocketServer) (a b : ptr) (seed : nat)
    (oa ob : Connection) :
  hub_wf s → connections s = {[a]} → a ≠ b →
  heap s !! a = Some oa → heap s !! b = Some ob →
  Chan.closed (send ob) = false → Chan.has_room (send ob) = true →
  ∃ s2, Run [EvRegister b seed; EvUnregister a] s = Done s2
    ∧ connections s2 = {[b]}
    ∧ heap s2 !! b = Some (with_send (Chan.push welcomeMsg (send ob)) ob)
    ∧ heap s2 !! a = Some (close_send (evicted oa))
    ∧ conn_closed (conn (close_send (evicted oa))) = true
    ∧ Chan.closed (send (close_send (evicted oa))) = true
    ∧ Chan.buf (send (close_send (evicted oa)))
      = (if Chan.has_room (send oa) then Chan.buf (send oa) ++ [closeMsg]
         else Chan.buf (send oa)).
Proof.
  intros Hwf Hs Hab Hoa Hob Hopen Hroom.
  assert (Chan.closed (send oa) = false) as Hopen_a.
  { destruct (member_ok_lookup s a) as (o & Ho & Hc).
    - apply Hwf. rewrite Hs. set_solver.
    - congruence. }
  destruct (register_next b seed s ob) as (e & oe & _ & Hin & Hoe & Hreg);
    try assumption.
  { rewrite Hs. apply non_empty_singleton_L. }
  { rewrite Hs. set_solver. }
  rewrite Hs in Hin. apply elem_of_singleton in Hin. subst e.
  assert (oe = oa) as -> by congruence.
  simpl. rewrite Hreg. simpl.
  rewrite (unregister_member a _ (evicted oa)).
  - eexists. split; [reflexivity|]. simpl. split; [|split; [|split]].
    + rewrite Hs. set_solver.
    + rewrite lookup_insert_ne by exact Hab.
      apply lookup_insert_eq.
    + apply lookup_insert_eq.
    + unfold evicted, close_send.
      destruct (Chan.has_room (send oa)); repeat split; reflexivity.
  - simpl. set_solver.
  - simpl. rewrite lookup_insert_ne by congruence. apply lookup_insert_eq.
  - unfold evicted. destruct (Chan.has_room (send oa)); simpl; exact Hopen_a.
Qed.

End eviction.

Lemma eviction_completes_witness :
  ∃ s2, Run (H:=codec) [EvRegister 1 0; EvUnregister 0] first_registered
        = Done s2
    ∧ connections s2 = {[1]}.
Proof.
  destruct (eviction_completes (H:=codec) first_registered 0 1 0
              (with_send (Chan.push (@welcomeMsg codec) (Chan.make 256))
                 newConnection)
              newConnection) as (s2 & Hrun & Hset & _).
  - exact first_registered_wf.
  - reflexivity.
  - discriminate.
  - vm_compute. reflexivity.
  - vm_compute. reflexivity.
  - reflexivity.
  - reflexivity.
  - exists s2. split; assumption.
Defined.

(** ** No queue is closed twice *)

Lemma closes_app c tr l :
  closes c (tr ++ l) = closes c tr + closes c l.
Proof. unfold closes. rewrite List.filter_app, length_app. reflexivity. Qed.

Lemma closed_in_insert X t s k o' c :
  closed_in (mkServer X (<[k := o']> (heap s)) t) c
  = if decide (c = k) then Chan.closed (send o') else closed_in s c.
Proof.
  unfold closed_in. simpl. destruct (decide (c = k)) as [->|Hne].
  - rewrite lookup_insert_eq. reflexivity.
  - rewrite lookup_insert_ne by congruence. reflexivity.
Qed.

Lemma closes_once_refl c s : closes_once c s s.
Proof. split; [left; reflexivity|]. intros Hc. split; [reflexivity|exact Hc]. Qed.

Lemma closes_once_trans c s1 s2 s3 :
  closes_once c s1 s2 → closes_once c s2 s3 → closes_once c s1 s3.
Proof.
  intros [H12 K12] [H23 K23]. split.
  - destruct H12 as [E12|[E12 C2]].
    + rewrite <- E12. exact H23.
    + destruct (K23 C2) as [E23 C3]. right. split; [congruence|exact C3].
  - intros C1. destruct (K12 C1) as [E12 C2].
    destruct (K23 C2) as [E23 C3]. split; [congruence|exact C3].
Qed.

(** A step that rewrites record [k], whose queue was open, and closes its
    queue or leaves it open. *)
Lemma closes_once_step c s k o o' X fx :
  heap s !! k = Some o → Chan.closed (send o) = false →
  (closes c fx = 0 ∧ Chan.closed (send o') = false
   ∨ closes c fx = (if decide (c = k) then 1 else 0)
     ∧ Chan.closed (send o') = true) →
  closes_once c s (mkServer X (<[k := o']> (heap s)) (trace s ++ fx)).
Proof.
  intros Ho Hopen Hfx. unfold closes_once. simpl.
  rewrite closes_app, closed_in_insert.
  destruct (decide (c = k)) as [->|Hne].
  - split.
    + destruct Hfx as [[-> _]|[-> ->]]; [left; lia|right; split; [lia|reflexivity]].
    + unfold closed_in. rewrite Ho, Hopen. discriminate.
  - assert (closes c fx = 0) as -> by (destruct Hfx as [[? _]|[? _]]; assumption).
    split; [left; lia|]. intros Hc. split; [lia|exact Hc].
Qed.

Lemma is_close_other c k : c ≠ k → is_close c (ChanClosed k) = false.
Proof. intros Hne. simpl. apply Nat.eqb_neq, Hne. Qed.

Lemma closes_ChanClosed c k :
  closes c [ChanClosed k] = if decide (c = k) then 1 else 0.
Proof.
  unfold closes. simpl. destruct (decide (c = k)) as [->|Hne].
  - rewrite Nat.eqb_refl. reflexivity.
  - apply Nat.eqb_neq in Hne. rewrite Hne. reflexivity.
Qed.

Lemma unregister_closes_once c k s s' :
  unregister k s = Done s' → closes_once c s s'.
Proof.
  unfold unregister. destruct (decide (k ∈ connections s)).
  - intros E. apply obind_Done in E as (o & Ho & E). apply deref_Done in Ho.
    apply obind_Done in E as (ch & Hch & E). injection E as <-.
    unfold Chan.close in Hch.
    destruct (Chan.closed (send o)) eqn:Hopen; [discriminate|].
    injection Hch as <-.
    apply (closes_once_step c s k o); [exact Ho|exact Hopen|].
    right. split; [apply closes_ChanClosed|reflexivity].
  - intros [= <-]. apply closes_once_refl.
Qed.

Lemma broadcast_one_closes_once c m k s s' :
  broadcast_one m k s = Done s' → closes_once c s s'.
Proof.
  unfold broadcast_one. intros E.
  apply obind_Done in E as (o & Ho & E). apply deref_Done in Ho.
  apply obind_Done in E as (r & Hr & E).
  unfold Chan.try_send in Hr.
  destruct (Chan.closed (send o)) eqn:Hopen; [discriminate|].
  destruct (Chan.has_room (send o)); injection Hr as <-.
  - injection E as <-.
    apply (closes_once_step c s k o); [exact Ho|exact Hopen|].
    left. split; [reflexivity|exact Hopen].
  - unfold Chan.close in E. rewrite Hopen in E. simpl in E. injection E as <-.
    apply (closes_once_step c s k o); [exact Ho|exact Hopen|].
    right. split; [apply closes_ChanClosed|reflexivity].
Qed.

Section closes_facts.
Context `{JSON}.

Lemma register_closes_once c k seed s s' :
  register k seed s = Done s' → closes_once c s s'.
Proof.
  unfold register. intros E.
  apply obind_Done in E as (s1 & H1 & E).
  apply obind_Done in E as (o & Ho & E). apply deref_Done in Ho.
  apply obind_Done in E as (ch & Hch & E). injection E as <-.
  simpl in Ho. unfold Chan.send in Hch.
  destruct (Chan.closed (send o)) eqn:Hopen; [discriminate|].
  destruct (Chan.has_room (send o)); [|discriminate]. injection Hch as <-.
  apply (closes_once_trans c s s1).
  - destruct (1 <=? size (connections s));
      [|injection H1 as <-; apply closes_once_refl].
    destruct (getExistingConnection seed s) as [e|];
      [|injection H1 as <-; apply closes_once_refl].
    unfold notify_and_close in H1.
    apply obind_Done in H1 as (oe & Hoe & H1). apply deref_Done in Hoe.
    apply obind_Done in H1 as (r & Hr & H1). injection H1 as <-.
    unfold Chan.try_send in Hr.
    destruct (Chan.closed (send oe)) eqn:Hopen_e; [discriminate|].
    apply (closes_once_step c s e oe); [exact Hoe|exact Hopen_e|].
    left. destruct (Chan.has_room (send oe)); injection Hr as <-;
      split; try reflexivity; exact Hopen_e.
  - apply (closes_once_step c s1 k o _
             ({[k]} ∪ connections s1) [Sent k welcomeMsg]);
      [exact Ho|exact Hopen|].
    left. split; [reflexivity|exact Hopen].
Qed.

Lemma handleWebSocket_closes_once c seed s s' :
  handleWebSocket seed s = Done s' → closes_once c s s'.
Proof.
  unfold handleWebSocket. set (k := fresh (dom (heap s))). intros E.
  apply register_closes_once with (c := c) in E.
  refine (closes_once_trans c s _ s' _ E).
  assert (heap s !! k = None) as Hfresh.
  { apply not_elem_of_dom, is_fresh. }
  unfold closes_once. simpl. rewrite closed_in_insert.
  split; [left; reflexivity|]. intros Hc. split; [reflexivity|].
  destruct (decide (c = k)) as [->|Hne]; [|exact Hc].
  unfold closed_in in Hc. rewrite Hfresh in Hc. discriminate.
Qed.

Lemma serve_step_closes_once c a s s' :
  serve_step a s = Done s' → closes_once c s s'.
Proof.
  destruct a as [[|] seed|k|m]; simpl; intros E.
  - eapply handleWebSocket_closes_once, E.
  - injection E as <-. apply closes_once_refl.
  - eapply unregister_closes_once, E.
  - unfold broadcast in E.
    apply (range_over_rel (closes_once c) (broadcast_one m)
             (closes_once_refl c) (closes_once_trans c))
      with (keys := elements (connections s)); [|exact E].
    intros k x y. apply broadcast_one_closes_once.
Qed.

Lemma serve_total arrivals : ∀ s,
  hub_wf s →
  ∃ s', serve arrivals s = Done s' ∧ hub_wf s'
    ∧ ∀ c, closes_once c s s'.
Proof.
  induction arrivals as [|a l IH]; intros s Hwf; simpl.
  - exists s. split; [reflexivity|]. split; [exact Hwf|].
    intros c. apply closes_once_refl.
  - destruct (serve_step_wf a s Hwf) as (s1 & E1 & Hwf1). rewrite E1. simpl.
    destruct (IH s1 Hwf1) as (s' & E & Hwf' & Hc).
    exists s'. split; [exact E|]. split; [exact Hwf'|].
    intros c. apply (closes_once_trans c s s1); [|apply Hc].
    apply (serve_step_closes_once c a), E1.
Qed.

(** X5. No queue is closed twice.  Whatever requests, unregister events
    (also repeated ones, and ones for records that are no longer or never
    were in the map) and broadcasts arrive at a new server, the hub
    processes them all without a panic, and it has closed the queue of any
    one record at most once: never for a record that is in the map, and
    once for a record only if that record has left the map and its queue
    is closed. *)
Theorem queue_closed_at_most_once (arrivals : list arrival) :
  ∃ s', serve arrivals NewWebSocketServer = Done s'
    ∧ ∀ c, closes c (trace s') ≤ 1
        ∧ (c ∈ connections s' → closes c (trace s') = 0)
        ∧ (closes c (trace s') = 1 →
           (c ∉ connections s')
           ∧ ∃ o, heap s' !! c = Some o ∧ Chan.closed (send o) = true).
Proof.
  destruct (serve_total arrivals NewWebSocketServer)
    as (s' & E & Hwf & Hc).
  { intros c Hin. simpl in Hin. set_solver. }
  exists s'. split; [exact E|]. intros c.
  destruct (Hc c) as [Hcount _]. simpl in Hcount.
  change (closes c []) with 0 in Hcount.
  assert (c ∈ connections s' → closed_in s' c = false) as Hmember.
  { intros Hin. destruct (member_ok_lookup s' c (Hwf c Hin)) as (o & Ho & Hopen).
    unfold closed_in. rewrite Ho. exact Hopen. }
  destruct Hcount as [E0|[E1 Hclosed]].
  - rewrite E0. split; [lia|]. split; [reflexivity|]. discriminate.
  - rewrite E1. split; [lia|]. split.
    + intros Hin. rewrite (Hmember Hin) in Hclosed. discriminate.
    + intros _. split.
      * intros Hin. rewrite (Hmember Hin) in Hclosed. discriminate.
      * unfold closed_in in Hclosed.
        destruct (heap s' !! c) as [o|]; [|discriminate]. eauto.
Qed.

End closes_facts.

Lemma queue_closed_at_most_once_witness :
  ∃ s', serve (H:=codec)
          [Request true 0; PumpEnded 0; PumpEnded 0; Published "m";
           PumpEnded 0] NewWebSocketServer = Done s'
    ∧ closes 0 (trace s') = 1
    ∧ connections s' = ∅.
Proof.
  destruct (queue_closed_at_most_once (H:=codec)
              [Request true 0; PumpEnded 0; PumpEnded 0; Published "m";
               PumpEnded 0]) as (s' & E & _).
  exists s'. split; [exact E|].
  assert (Done s' = serve (H:=codec)
            [Request true 0; PumpEnded 0; PumpEnded 0; Published "m";
             PumpEnded 0] NewWebSocketServer) as Hs by (symmetry; exact E).
  vm_compute in Hs. injection Hs as ->. split; vm_compute; reflexivity.
Defined.

(** ** After Shutdown; broadcasts in a row *)

Lemma Shutdown_empties s :
  hub_wf s → ∃ s', Shutdown s = Done s' ∧ connections s' = ∅.
Proof.
  intros Hwf.
  destruct (range_over_spec shutdown_one after_shutdown (λ _, false)
              (λ c _, [ChanClosed c; ConnClosed c]) shutdown_one_spec
              (elements (connections s)) s)
    as (s' & Hrun & Hconn & _).
  { apply NoDup_elements. }
  { intros c Hc. apply Hwf, elem_of_elements, Hc. }
  exists s'. split; [exact Hrun|].
  apply elem_of_equiv_empty_L. intros c Hc.
  apply Hconn in Hc as [Hc Hno]. apply Hno.
  split; [apply elem_of_elements, Hc|].
  destruct (member_ok_lookup s c (Hwf _ Hc)) as (o & Ho & _). eauto.
Qed.

(** X6. What arrives after [Shutdown] does no harm.  Once [Shutdown] has
    returned, the unregister event that the read pump of any record submits
    when it sees its transport closed changes nothing (the queue is not
    closed a second time), a broadcast reaches nobody, and a second
    [Shutdown] changes nothing. *)
Theorem after_Shutdown_nothing_happens (s : WebSocketServer) :
  hub_wf s →
  ∃ s', Shutdown s = Done s'
    ∧ (∀ c, unregister c s' = Done s')
    ∧ (∀ message, broadcast message s' = Done s')
    ∧ Shutdown s' = Done s'.
Proof.
  intros Hwf. destruct (Shutdown_empties s Hwf) as (s' & Hrun & Hempty).
  exists s'. split; [exact Hrun|]. split; [|split].
  - intros c. apply unregister_not_member. rewrite Hempty. set_solver.
  - intros m. unfold broadcast. rewrite Hempty, elements_empty. reflexivity.
  - unfold Shutdown. rewrite Hempty, elements_empty. reflexivity.
Qed.

Lemma after_Shutdown_nothing_happens_witness :
  ∃ s', Shutdown one_member = Done s'
    ∧ (∀ c, unregister c s' = Done s')
    ∧ (∀ message, broadcast message s' = Done s')
    ∧ Shutdown s' = Done s'.
Proof.
  apply (after_Shutdown_nothing_happens one_member). exact one_member_wf.
Defined.

Lemma broadcast_member message s c o :
  hub_wf s → c ∈ connections s → heap s !! c = Some o →
  Chan.has_room (send o) = true →
  ∃ s', broadcast message s = Done s'
    ∧ hub_wf s'
    ∧ c ∈ connections s'
    ∧ heap s' !! c = Some (with_send (Chan.push message (send o)) o).
Proof.
  intros Hwf Hc Ho Hroom.
  destruct (range_over_spec (broadcast_one message) (after_broadcast message)
              (λ o, Chan.has_room (send o)) (broadcast_effects message)
              (broadcast_one_spec message) (elements (connections s)) s)
    as (s' & Hrun & Hconn & Hheap & _).
  { apply NoDup_elements. }
  { intros x Hx. apply Hwf, elem_of_elements, Hx. }
  exists s'. split; [exact Hrun|]. split; [|split].
  - eapply broadcast_wf; [exact Hwf|exact Hrun].
  - apply Hconn. split; [exact Hc|]. intros [_ (o' & Ho' & Hk)]. congruence.
  - rewrite Hheap, decide_True by (apply elem_of_elements, Hc).
    rewrite Ho. simpl. unfold after_broadcast. rewrite Hroom. reflexivity.
Qed.

Section fanout.
Context `{JSON}.

(** X7. Broadcasts are delivered in their order of arrival.  A member
    whose queue has room for all of a series of broadcast payloads stays in
    the map throughout, and afterwards its queue holds what it held
    followed by the payloads in the order in which they were broadcast;
    its transport is not touched. *)
Theorem broadcasts_queue_in_order (messages : list string) :
  ∀ (s : WebSocketServer) (c : ptr) (o : Connection),
  hub_wf s → c ∈ connections s → heap s !! c = Some o →
  length (Chan.buf (send o)) + length messages ≤ Chan.cap (send o) →
  ∃ s' o', Run (map EvBroadcast messages) s = Done s'
    ∧ c ∈ connections s'
    ∧ heap s' !! c = Some o'
    ∧ Chan.buf (send o') = Chan.buf (send o) ++ messages
    ∧ Chan.closed (send o') = false
    ∧ conn o' = conn o.
Proof.
  induction messages as [|m messages IH]; intros s c o Hwf Hc Ho Hlen.
  - exists s, o. simpl. rewrite app_nil_r.
    repeat split; try assumption; try reflexivity.
    destruct (member_ok_lookup s c (Hwf c Hc)) as (o' & Ho' & Hopen).
    congruence.
  - simpl in Hlen.
    destruct (broadcast_member m s c o Hwf Hc Ho) as (s1 & H1 & Hwf1 & Hc1 & Ho1).
    { unfold Chan.has_room. apply Nat.ltb_lt. lia. }
    destruct (IH s1 c _ Hwf1 Hc1 Ho1) as (s' & o' & Hrun & Hc' & Ho' & Hbuf & Hopen & Hconn).
    { simpl. rewrite length_app. simpl. lia. }
    exists s', o'. simpl. rewrite H1. simpl.
    split; [exact Hrun|]. split; [exact Hc'|]. split; [exact Ho'|].
    split; [|split; [exact Hopen|exact Hconn]].
    rewrite Hbuf. simpl. rewrite <- app_assoc. reflexivity.
Qed.

End fanout.

Lemma broadcasts_queue_in_order_witness :
  ∃ s' o', Run (H:=codec) (map EvBroadcast ["a"; "b"; "c"]%string) one_member
           = Done s'
    ∧ 7 ∈ connections s'
    ∧ heap s' !! 7 = Some o'
    ∧ Chan.buf (send o')
      = Chan.buf (send newConnection) ++ ["a"; "b"; "c"]%string
    ∧ Chan.closed (send o') = false
    ∧ conn o' = conn newConnection.
Proof.
  apply (broadcasts_queue_in_order (H:=codec) ["a"; "b"; "c"]%string
           one_member 7 newConnection).
  - exact one_member_wf.
  - change (7 ∈ ({[7]} : gset nat)). set_solver.
  - vm_compute. reflexivity.
  - simpl. lia.
Defined.

(** ** The write pump *)

Lemma texts_app fs gs : texts (fs ++ gs) = texts fs ++ texts gs.
Proof.
  induction fs as [|f fs IH]; simpl; [reflexivity|].
  destruct f; simpl; rewrite IH; reflexivity.
Qed.

Lemma writePump_step_running which net_ok o o' :
  writePump_step which net_ok o = Some (WPRunning, o') →
  texts (written (conn o')) ++ Chan.buf (send o')
  = texts (written (conn o)) ++ Chan.buf (send o)
  ∧ Chan.closed (send o') = Chan.closed (send o)
  ∧ conn_closed (conn o') = false.
Proof.
  unfold writePump_step, conn_WriteMessage, wp_return.
  destruct which.
  - unfold Chan.recv. destruct (Chan.buf (send o)) as [|m rest] eqn:Hbuf.
    + destruct (Chan.closed (send o)); discriminate.
    + simpl. destruct (conn_closed (conn o)) eqn:Hc; [discriminate|].
      destruct net_ok; [|discriminate]. intros [= <-]. simpl.
      rewrite texts_app. simpl. rewrite <- app_assoc. repeat split.
  - destruct (conn_closed (conn o)) eqn:Hc; [discriminate|].
    destruct net_ok; [|discriminate]. intros [= <-]. simpl.
    rewrite texts_app. simpl. rewrite app_nil_r. repeat split.
Qed.

Lemma writePump_step_returned which net_ok o o' :
  writePump_step which net_ok o = Some (WPReturned, o') →
  conn_closed (conn o') = true.
Proof.
  unfold writePump_step, conn_WriteMessage, wp_return.
  destruct which.
  - destruct (Chan.recv (send o)) as [m ch| |]; [| |discriminate].
    + simpl. destruct (conn_closed (conn o)); [|destruct net_ok];
        intros [= <-]; reflexivity.
    + intros [= <-]. reflexivity.
  - destruct (conn_closed (conn o)); [|destruct net_ok];
      intros [= <-]; reflexivity.
Qed.

(** X8. The write pump loses, repeats and reorders nothing.  Under every
    schedule of its select and of the network, as long as the pump has not
    returned, the payloads of the text frames it has written followed by
    what is left in the queue are what they were at the start: every
    payload is written once, in queue order, and the pings in between take
    nothing off the queue. *)
Theorem writePump_conserves (schedule : list (select_case * bool)) :
  ∀ o o' : Connection,
  writePump schedule o = (WPRunning, o') →
  texts (written (conn o')) ++ Chan.buf (send o')
  = texts (written (conn o)) ++ Chan.buf (send o)
  ∧ Chan.closed (send o') = Chan.closed (send o).
Proof.
  induction schedule as [|[which net_ok] rest IH]; intros o o' E; simpl in E.
  - injection E as <-. split; reflexivity.
  - destruct (writePump_step which net_ok o) as [[[|] o1]|] eqn:Hstep.
    + apply writePump_step_running in Hstep as (H1 & H2 & _).
      destruct (IH o1 o' E) as [H3 H4]. split; congruence.
    + discriminate.
    + apply IH, E.
Qed.

Lemma writePump_conserves_witness :
  ∃ o', writePump [(CaseSend, true); (CaseTicker, true); (CaseSend, true)]
          three_queued = (WPRunning, o')
    ∧ texts (written (conn o')) ++ Chan.buf (send o')
      = texts (written (conn three_queued)) ++ Chan.buf (send three_queued)
    ∧ Chan.closed (send o') = Chan.closed (send three_queued).
Proof.
  eexists. split; [reflexivity|].
  apply (writePump_conserves
           [(CaseSend, true); (CaseTicker, true); (CaseSend, true)]
           three_queued).
  reflexivity.
Defined.

Lemma writePump_cons which net_ok rest o :
  writePump ((which, net_ok) :: rest) o
  = match writePump_step which net_ok o with
    | None => writePump rest o
    | Some (WPRunning, o') => writePump rest o'
    | Some (WPReturned, o') => (WPReturned, o')
    end.
Proof. reflexivity. Qed.

Lemma writePump_step_text m buf w cap cl :
  writePump_step CaseSend true
    (mkConnection (mkConn false w) (Chan.mk (m :: buf) cap cl))
  = Some (WPRunning,
          mkConnection (mkConn false (w ++ [TextMessage m]))
            (Chan.mk buf cap cl)).
Proof. reflexivity. Qed.

Lemma writePump_flush_open buf : ∀ w cap n,
  length buf ≤ n →
  writePump (replicate n (CaseSend, true))
    (mkConnection (mkConn false w) (Chan.mk buf cap false))
  = (WPRunning,
     mkConnection (mkConn false (w ++ map TextMessage buf))
       (Chan.mk [] cap false)).
Proof.
  induction buf as [|m buf IH]; intros w cap n Hn.
  - clear Hn. simpl map. rewrite app_nil_r.
    induction n as [|n IHn]; [reflexivity|].
    cbn [replicate]. rewrite writePump_cons. exact IHn.
  - destruct n as [|n]; [simpl in Hn; lia|]. simpl in Hn.
    cbn [replicate]. rewrite writePump_cons, writePump_step_text.
    rewrite IH by lia. simpl map. rewrite <- app_assoc. reflexivity.
Qed.

Lemma writePump_flush_closed buf : ∀ w cap n,
  length buf < n →
  writePump (replicate n (CaseSend, true))
    (mkConnection (mkConn false w) (Chan.mk buf cap true))
  = (WPReturned,
     mkConnection (mkConn true (w ++ map TextMessage buf ++ [CloseMessage]))
       (Chan.mk [] cap true)).
Proof.
  induction buf as [|m buf IH]; intros w cap n Hn.
  - destruct n as [|n]; [simpl in Hn; lia|]. reflexivity.
  - destruct n as [|n]; [simpl in Hn; lia|]. simpl in Hn.
    cbn [replicate]. rewrite writePump_cons, writePump_step_text.
    rewrite IH by lia. simpl map. rewrite <- app_assoc. reflexivity.
Qed.

(** X9. With the transport open and the network accepting every write, the
    write pump empties the queue onto the transport, one text frame per
    payload in queue order.  If the queue is open it then waits; if the
    queue has been closed (the record was unregistered) it writes the
    queued payloads first, then a close frame, and returns with the
    transport closed. *)
Theorem writePump_flushes (o : Connection) (n : nat) :
  conn_closed (conn o) = false →
  length (Chan.buf (send o)) < n →
  let '(status, o') := writePump (replicate n (CaseSend, true)) o in
  Chan.buf (send o') = []
  ∧ Chan.closed (send o') = Chan.closed (send o)
  ∧ if Chan.closed (send o)
    then status = WPReturned
         ∧ conn_closed (conn o') = true
         ∧ written (conn o')
           = written (conn o) ++ map TextMessage (Chan.buf (send o))
             ++ [CloseMessage]
    else status = WPRunning
         ∧ conn_closed (conn o') = false
         ∧ written (conn o')
           = written (conn o) ++ map TextMessage (Chan.buf (send o)).
Proof.
  destruct o as [[cc w] [buf cap cl]]. simpl. intros -> Hn.
  destruct cl.
  - rewrite writePump_flush_closed by exact Hn. simpl. repeat split.
  - rewrite writePump_flush_open by lia. simpl. repeat split.
Qed.

Lemma writePump_flushes_witness :
  let '(status, o') := writePump (replicate 4 (CaseSend, true)) three_queued in
  Chan.buf (send o') = []
  ∧ Chan.closed (send o') = Chan.closed (send three_queued)
  ∧ if Chan.closed (send three_queued)
    then status = WPReturned
         ∧ conn_closed (conn o') = true
         ∧ written (conn o')
           = written (conn three_queued)
             ++ map TextMessage (Chan.buf (send three_queued))
             ++ [CloseMessage]
    else status = WPRunning
         ∧ conn_closed (conn o') = false
         ∧ written (conn o')
           = written (conn three_queued)
             ++ map TextMessage (Chan.buf (send three_queued)).
Proof.
  apply (writePump_flushes three_queued 4).
  - reflexivity.
  - simpl. lia.
Defined.

(** X10. The write pump returns only with the transport closed, whatever
    made it return, and a write that fails makes it return at once: under
    every schedule a pump that has returned leaves the transport closed,
    and every iteration whose write the network refuses is the last. *)
Theorem writePump_returns_closed (schedule : list (select_case * bool))
    (o : Connection) :
  (∀ o', writePump schedule o = (WPReturned, o') →
         conn_closed (conn o') = true)
  ∧ (∀ which r, writePump_step which false o = Some r →
                fst r = WPReturned ∧ conn_closed (conn (snd r)) = true).
Proof.
  split.
  - revert o. induction schedule as [|[which net_ok] rest IH];
      intros o o' E; simpl in E; [discriminate|].
    destruct (writePump_step which net_ok o) as [[[|] o1]|] eqn:Hstep.
    + apply (IH o1 o' E).
    + injection E as <-. apply (writePump_step_returned _ _ _ _ Hstep).
    + apply (IH o o' E).
  - intros which r. unfold writePump_step, conn_WriteMessage, wp_return.
    destruct which.
    + destruct (Chan.recv (send o)) as [m ch| |]; [| |discriminate].
      * simpl. destruct (conn_closed (conn o)); intros [= <-];
          split; reflexivity.
      * intros [= <-]. split; reflexivity.
    + destruct (conn_closed (conn o)); intros [= <-]; split; reflexivity.
Qed.

(** ** The read pump, over whole sessions *)

Section readPump_more.
Context `{JSON} {S : Type} `{KeySimulator S}.

Lemma rp_send_cases errorMsg (st : readPump_state S) :
  let st' := rp_send errorMsg st in
  rp_presses st' = rp_presses st
  ∧ rp_input st' = rp_input st
  ∧ ((rp_pc st' = AtRead ∨ rp_pc st' = AtSend errorMsg)
     ∧ rp_unregister st' = rp_unregister st
     ∧ conn (rp_connection st') = conn (rp_connection st)
     ∨ rp_pc st' = Panicked
       ∧ rp_unregister st' = Datatypes.S (rp_unregister st)
       ∧ conn_closed (conn (rp_connection st')) = true).
Proof.
  unfold rp_send. destruct (Chan.send errorMsg (send (rp_connection st)));
    simpl; repeat split; auto.
Qed.

Lemma rp_iteration_cases r (st : readPump_state S) :
  let st' := rp_iteration r st in
  (rp_pc st' = rp_pc st ∨ (∃ m, rp_pc st' = AtSend m) ∨ rp_pc st' = AtRead)
  ∧ rp_unregister st' = rp_unregister st
  ∧ conn (rp_connection st') = conn (rp_connection st)
  ∨ (rp_pc st' = Returned ∨ rp_pc st' = Panicked)
    ∧ rp_unregister st' = Datatypes.S (rp_unregister st)
    ∧ conn_closed (conn (rp_connection st')) = true.
Proof.
  unfold rp_iteration.
  destruct (conn_closed (conn (rp_connection st))).
  { right. simpl. repeat split; auto. }
  destruct r as [message|unexpected].
  - destruct (json_Unmarshal message) as [keyMsg|]; simpl;
      [|left; repeat split; auto].
    destruct (rp_input st) as [sim|]; simpl; [|left; repeat split; auto].
    destruct (String.eqb (Type_ keyMsg) "key"); [|left; repeat split; auto].
    unfold rp_press. destruct (PressKey (Key keyMsg) sim) as [[e|] sim'].
    + match goal with |- context [rp_send ?m ?x] =>
        destruct (rp_send_cases m x) as (_ & _ & [([Hpc|Hpc] & Hu & Hc)|(Hpc & Hu & Hc)])
      end.
      * left. split; [right; right; exact Hpc|]. split; [exact Hu|exact Hc].
      * left. split; [right; left; eauto|]. split; [exact Hu|exact Hc].
      * right. split; [right; exact Hpc|]. split; [exact Hu|exact Hc].
    + left. simpl. repeat split; auto.
  - right. destruct unexpected; simpl; repeat split; auto.
Qed.

(** X11. The read pump submits its unregister event once, when it ends and
    not before.  Whatever arrives on the transport, a pump that started at
    its read and has returned or panicked has submitted exactly one
    unregister event and has closed the transport, and a pump that is still
    reading or waiting in its send has submitted none. *)
Theorem readPump_unregisters_once (rs : list read_result)
    (st : readPump_state S) :
  rp_pc st = AtRead →
  let st' := readPump rs st in
  (rp_pc st' = Returned ∨ rp_pc st' = Panicked →
   rp_unregister st' = Datatypes.S (rp_unregister st)
   ∧ conn_closed (conn (rp_connection st')) = true)
  ∧ (rp_pc st' = AtRead ∨ (∃ m, rp_pc st' = AtSend m) →
     rp_unregister st' = rp_unregister st
     ∧ conn (rp_connection st') = conn (rp_connection st)).
Proof.
  intros Hpc. simpl. rewrite readPump_at_read by exact Hpc.
  revert st Hpc. induction rs as [|r rs IH]; intros st Hpc; simpl.
  - split.
    + intros [E|E]; congruence.
    + intros _. split; reflexivity.
  - rewrite Hpc.
    destruct (rp_iteration_cases r st)
      as [(Hpc' & Hu & Hc)|(Hpc' & Hu & Hc)].
    + destruct Hpc' as [Hpc'|[[m Hpc']|Hpc']].
      * rewrite Hpc in Hpc'. destruct (IH _ Hpc') as [IH1 IH2].
        split; intros E.
        -- destruct (IH1 E) as [-> ->]. split; [congruence|reflexivity].
        -- destruct (IH2 E) as [-> ->]. split; assumption.
      * assert (readPump_loop rs (rp_iteration r st) = rp_iteration r st)
          as ->.
        { destruct rs; simpl; [reflexivity|]. rewrite Hpc'. reflexivity. }
        split; intros E.
        -- destruct E as [E|E]; congruence.
        -- split; assumption.
      * destruct (IH _ Hpc') as [IH1 IH2]. split; intros E.
        -- destruct (IH1 E) as [-> ->]. split; [congruence|reflexivity].
        -- destruct (IH2 E) as [-> ->]. split; assumption.
    + assert (readPump_loop rs (rp_iteration r st) = rp_iteration r st)
        as ->.
      { destruct rs; simpl; [reflexivity|].
        destruct Hpc' as [-> | ->]; reflexivity. }
      split; intros E.
      * split; assumption.
      * destruct Hpc' as [Hp|Hp]; rewrite Hp in E;
          destruct E as [E|[m E]]; discriminate.
Qed.

(** X12. With a sink that accepts every key, the read pump presses the keys
    of the session in the order in which they arrive: after any sequence of
    reads on an open transport the keys passed to the sink are those passed
    before, followed by the key of each frame that decodes to type key, up
    to the first read error; frames that do not decode or have another type
    add nothing, and nothing is sent to the queue of the record. *)
Theorem readPump_presses_in_order (rs : list read_result) :
  ∀ (st : readPump_state S) (sim : S),
  (∀ key sim0, fst (PressKey key sim0) = None) →
  rp_pc st = AtRead →
  conn_closed (conn (rp_connection st)) = false →
  rp_input st = Some sim →
  rp_presses (readPump rs st) = rp_presses st ++ keys_read rs
  ∧ send (rp_connection (readPump rs st)) = send (rp_connection st).
Proof.
  intros st sim Haccept Hpc. rewrite readPump_at_read by exact Hpc.
  revert st sim Hpc.
  induction rs as [|r rs IH]; intros st sim Hpc Hopen Hsim; simpl.
  - rewrite app_nil_r. split; reflexivity.
  - rewrite Hpc. destruct r as [message|unexpected].
    + rewrite rp_iteration_frame by exact Hopen. simpl. rewrite Hsim.
      destruct (json_Unmarshal message) as [keyMsg|].
      * destruct (String.eqb (Type_ keyMsg) "key").
        -- unfold rp_press.
           pose proof (Haccept (Key keyMsg) sim) as Hok.
           destruct (PressKey (Key keyMsg) sim) as [err sim'].
           simpl in Hok. subst err.
           match goal with |- context [readPump_loop rs ?x] =>
             destruct (IH x sim') as [IH1 IH2]; [exact Hpc|exact Hopen|reflexivity|]
           end.
           rewrite IH1, IH2. simpl. rewrite <- app_assoc. split; reflexivity.
        -- match goal with |- context [readPump_loop rs ?x] =>
             destruct (IH x sim) as [IH1 IH2]; [exact Hpc|exact Hopen|exact Hsim|]
           end.
           rewrite IH1, IH2. split; reflexivity.
      * match goal with |- context [readPump_loop rs ?x] =>
          destruct (IH x sim) as [IH1 IH2]; [exact Hpc|exact Hopen|exact Hsim|]
        end.
        rewrite IH1, IH2. split; reflexivity.
    + unfold rp_iteration. rewrite Hopen.
      match goal with |- context [readPump_loop rs ?x] =>
        assert (readPump_loop rs x = x) as ->
          by (destruct rs; [reflexivity|destruct unexpected; reflexivity])
      end.
      rewrite app_nil_r. destruct unexpected; split; reflexivity.
Qed.

(** X13. Until a sink is installed the read pump only logs: with
    [s.input] nil, whatever arrives, no key is pressed, nothing is sent to
    the queue of the record, and the pump never waits in a send. *)
Theorem readPump_without_sink (rs : list read_result) :
  ∀ st : readPump_state S,
  rp_pc st = AtRead → rp_input st = None →
  rp_presses (readPump rs st) = rp_presses st
  ∧ send (rp_connection (readPump rs st)) = send (rp_connection st)
  ∧ (rp_pc (readPump rs st) = AtRead ∨ rp_pc (readPump rs st) = Returned).
Proof.
  intros st Hpc. rewrite readPump_at_read by exact Hpc. revert st Hpc.
  induction rs as [|r rs IH]; intros st Hpc Hnone; simpl.
  - repeat split. left. exact Hpc.
  - rewrite Hpc. unfold rp_iteration.
    destruct (conn_closed (conn (rp_connection st))) eqn:Hc.
    { match goal with |- context [readPump_loop rs ?x] =>
        assert (readPump_loop rs x = x) as -> by (destruct rs; reflexivity)
      end. simpl. repeat split. right. reflexivity. }
    destruct r as [message|unexpected].
    + simpl. rewrite Hnone.
      destruct (json_Unmarshal message) as [keyMsg|];
        match goal with |- context [readPump_loop rs ?x] =>
          destruct (IH x) as (IH1 & IH2 & IH3); [exact Hpc|exact Hnone|]
        end; rewrite IH1, IH2; repeat split; exact IH3.
    + match goal with |- context [readPump_loop rs ?x] =>
        assert (readPump_loop rs x = x) as ->
          by (destruct rs; [reflexivity|destruct unexpected; reflexivity])
      end.
      destruct unexpected; simpl; repeat split; right; reflexivity.
Qed.

End readPump_more.

Lemma readPump_unregisters_once_witness :
  rp_unregister
    (@readPump codec unit failing_sink [ReadFrame (key_frame "1")]
       failing_pump) = 0
  ∧ rp_unregister
      (@readPump codec keySimulator (@keySimulator_sink (runtime_on "linux"))
         session linux_pump) = 1.
Proof.
  split.
  - destruct (@readPump_unregisters_once codec unit failing_sink
                [ReadFrame (key_frame "1")] failing_pump eq_refl)
      as [_ Hwait].
    destruct Hwait as [Hu _]; [|exact Hu].
    left. vm_compute. reflexivity.
  - destruct (@readPump_unregisters_once codec keySimulator
                (@keySimulator_sink (runtime_on "linux")) session
                linux_pump eq_refl) as [Hdone _].
    destruct Hdone as [Hu _]; [|exact Hu].
    left. vm_compute. reflexivity.
Defined.

Lemma readPump_presses_in_order_witness :
  rp_presses
    (@readPump codec keySimulator (@keySimulator_sink (runtime_on "linux"))
       session linux_pump)
  = ["1"; "+"; "2"]%string.
Proof.
  destruct (@readPump_presses_in_order codec keySimulator
              (@keySimulator_sink (runtime_on "linux")) session
              linux_pump NewKeySimulator) as [Hp _].
  - intros key sim0. reflexivity.
  - reflexivity.
  - reflexivity.
  - reflexivity.
  - rewrite Hp. vm_compute. reflexivity.
Defined.

Lemma readPump_without_sink_witness :
  rp_presses (@readPump codec unit failing_sink session bare_pump) = [].
Proof.
  destruct (@readPump_without_sink codec unit failing_sink session bare_pump)
    as (Hp & _ & _).
  - reflexivity.
  - reflexivity.
  - exact Hp.
Defined.

(** ** The key simulator, over several keys *)

Section simulator_more.
Context `{GoRuntime}.

Lemma press_all_supported keys : ∀ k : keySimulator,
  runtime_GOOS = "linux"%string ∨ runtime_GOOS = "windows"%string →
  taps (press_all keys k) = taps k ++ map mapped keys.
Proof.
  induction keys as [|key keys IH]; intros k Hos; unfold press_all; simpl.
  - rewrite app_nil_r. reflexivity.
  - fold (press_all keys (snd (PressKey key k))).
    rewrite IH by exact Hos.
    unfold PressKey, keySimulator_sink, keySimulator_PressKey.
    destruct Hos as [-> | ->]; simpl; rewrite <- app_assoc; reflexivity.
Qed.

Lemma press_all_unsupported keys : ∀ k : keySimulator,
  runtime_GOOS ≠ "linux"%string → runtime_GOOS ≠ "windows"%string →
  press_all keys k = k.
Proof.
  induction keys as [|key keys IH]; intros k N1 N2; unfold press_all; simpl.
  - reflexivity.
  - fold (press_all keys (snd (PressKey key k))).
    rewrite IH by assumption.
    unfold PressKey, keySimulator_sink, keySimulator_PressKey.
    apply String.eqb_neq in N1, N2. rewrite N1, N2. reflexivity.
Qed.

(** X14. Key presses accumulate in order, or not at all.  On linux and
    windows, pressing a sequence of keys performs one [robotgo.KeyTap] per
    key, in order, each with the entry of the key table for the lowercased
    key or else with the key as given.  On any other system no key is ever
    tapped: the simulator is unchanged by any sequence of presses, and each
    press returns the error that names the system. *)
Theorem press_all_taps (keys : list string) (k : keySimulator) :
  (runtime_GOOS = "linux"%string ∨ runtime_GOOS = "windows"%string →
   taps (press_all keys k) = taps k ++ map mapped keys)
  ∧ (runtime_GOOS ≠ "linux"%string → runtime_GOOS ≠ "windows"%string →
     press_all keys k = k
     ∧ ∀ key, PressKey key k
              = (Some ("unsupported operating system: " ++ runtime_GOOS)%string,
                 k)).
Proof.
  split.
  - apply press_all_supported.
  - intros N1 N2. split; [apply press_all_unsupported; assumption|].
    intros key. unfold PressKey, keySimulator_sink, keySimulator_PressKey.
    apply String.eqb_neq in N1, N2. rewrite N1, N2. reflexivity.
Qed.

End simulator_more.

Lemma press_all_taps_witness :
  taps (@press_all (runtime_on "windows") ["7"; "Enter"; "F5"]%string
          NewKeySimulator)
  = ["kp_7"; "kp_enter"; "F5"]%string
  ∧ @press_all (runtime_on "darwin") ["7"; "Enter"; "F5"]%string
      NewKeySimulator
    = NewKeySimulator.
Proof.
  destruct (@press_all_taps (runtime_on "windows") ["7"; "Enter"; "F5"]%string
              NewKeySimulator) as [Hsup _].
  destruct (@press_all_taps (runtime_on "darwin") ["7"; "Enter"; "F5"]%string
              NewKeySimulator) as [_ Hunsup].
  split.
  - rewrite Hsup by (right; reflexivity). vm_compute. reflexivity.
  - apply Hunsup; discriminate.
Defined.

(** ** The page, over whole histories *)

Section page_more.
Context `{JSParse}.

Lemma connectWebSocket_sockets ok p :
  sockets (connectWebSocket ok p) + (if connecting (connectWebSocket ok p)
                                     then 0 else 1)
  = sockets p + (if connecting p then 0 else 1).
Proof.
  unfold connectWebSocket. destruct (connecting p) eqn:E; [rewrite E; reflexivity|].
  destruct ok; simpl; lia.
Qed.

Lemma handleWebSocketMessage_sockets data p :
  sockets (handleWebSocketMessage data p) = sockets p
  ∧ connecting (handleWebSocketMessage data p) = connecting p
  ∧ fired (handleWebSocketMessage data p) = fired p
  ∧ connected (handleWebSocketMessage data p) = connected p.
Proof.
  unfold handleWebSocketMessage.
  destruct (JSON_parse data) as [m|]; [|tauto].
  destruct (bool_decide (status m = Some "connected"%string)); [simpl; tauto|].
  destruct (bool_decide (status m = Some "disconnected"%string)); [|tauto].
  destruct (bool_decide (reason m = _)); simpl; tauto.
Qed.

Lemma onclose_sockets p :
  sockets (onclose p) = sockets p ∧ connecting (onclose p) = connecting p.
Proof.
  unfold onclose. simpl. destruct (wasReplaced p); simpl; [tauto|].
  unfold attemptReconnect. simpl. destruct (_ <? _); simpl; tauto.
Qed.

Lemma page_step_sockets p ev :
  sockets (page_step p ev) + (if connecting (page_step p ev) then 0 else 1)
  ≤ sockets p + (if connecting p then 0 else 1)
    + (if finishes ev then 1 else 0).
Proof.
  destruct ev as [|data| | |ok|ok]; simpl.
  - destruct (connecting p); lia.
  - destruct (handleWebSocketMessage_sockets data p) as (-> & -> & _). lia.
  - destruct (onclose_sockets p) as (-> & ->). lia.
  - destruct (connecting p); lia.
  - destruct (fired p <? length (timers p)); [|lia].
    rewrite connectWebSocket_sockets. simpl. lia.
  - destruct (negb (connected p) && (reconnectAttempts p =? 0)); [|lia].
    rewrite connectWebSocket_sockets. lia.
Qed.

(** X15. The page opens one socket at a time.  After any history from the
    load of the page, the number of [new WebSocket] calls is at most one
    more than the number of connection attempts that have ended (open or
    error events), and it is at most that number while no attempt is
    pending: neither a retry timer nor a focus event creates a socket while
    an attempt is under way. *)
Theorem one_socket_at_a_time (ctor_ok : bool) (evs : list page_event) :
  let p := page_run evs (new_NumpadKeyboard ctor_ok) in
  sockets p + (if connecting p then 0 else 1)
  ≤ Datatypes.S (length (List.filter finishes evs)).
Proof.
  simpl.
  assert (∀ l p, sockets (page_run l p)
                 + (if connecting (page_run l p) then 0 else 1)
                 ≤ sockets p + (if connecting p then 0 else 1)
                   + length (List.filter finishes l)) as Hgen.
  { induction l as [|ev l IH]; intros p; simpl; [lia|].
    pose proof (IH (page_step p ev)). pose proof (page_step_sockets p ev).
    destruct (finishes ev); simpl; lia. }
  pose proof (Hgen evs (new_NumpadKeyboard ctor_ok)) as Hle.
  destruct ctor_ok; simpl in Hle; lia.
Qed.

Lemma failed_round_step p :
  page_inv p → idle p → reconnectAttempts p < 5 →
  let q := page_run failed_round p in
  page_inv q ∧ idle q
  ∧ reconnectAttempts q = Datatypes.S (reconnectAttempts p)
  ∧ sockets q = Datatypes.S (sockets p)
  ∧ timers q = timers p ++ [2000]
  ∧ connected q = false.
Proof.
  intros (Hmax & Hdelay & Hle) (Hflag & Hconn & Hfired) Hlt.
  unfold failed_round, page_run. simpl fold_left.
  unfold onclose. simpl. rewrite Hflag. unfold attemptReconnect. simpl.
  rewrite Hmax. apply Nat.ltb_lt in Hlt. rewrite Hlt. simpl.
  rewrite Hfired, length_app, Hdelay. simpl.
  assert ((length (timers p) <? length (timers p) + 1) = true) as ->
    by (apply Nat.ltb_lt; lia).
  unfold connectWebSocket. simpl. rewrite Hconn. simpl.
  apply Nat.ltb_lt in Hlt.
  unfold page_inv, idle. simpl. rewrite length_app. simpl.
  repeat split; try assumption; try reflexivity; lia.
Qed.

Lemma failed_rounds_run n : ∀ p,
  page_inv p → idle p → reconnectAttempts p + n ≤ 5 →
  let q := page_run (failed_rounds n) p in
  page_inv q ∧ idle q
  ∧ reconnectAttempts q = reconnectAttempts p + n
  ∧ sockets q = sockets p + n
  ∧ timers q = timers p ++ replicate n 2000.
Proof.
  induction n as [|n IH]; intros p Hinv Hidle Hle.
  - simpl. rewrite app_nil_r, !Nat.add_0_r. tauto.
  - unfold failed_rounds. cbn [replicate concat]. rewrite page_run_app.
    destruct (failed_round_step p Hinv Hidle) as (Hinv1 & Hidle1 & Ha & Hs & Ht & _);
      [lia|].
    destruct (IH (page_run failed_round p) Hinv1 Hidle1) as (Hinv2 & Hidle2 & Ha2 & Hs2 & Ht2);
      [lia|].
    fold (failed_rounds n). cbv zeta in *.
    split; [exact Hinv2|]. split; [exact Hidle2|].
    rewrite Ha2, Hs2, Ht2, Ha, Hs, Ht. cbn [replicate].
    rewrite <- app_assoc. repeat split; lia.
Qed.

(** X16. When every reconnection fails, the page gives up after the fifth.
    From any state of the page after its load in which no eviction notice,
    no connection attempt and no retry timer is pending, and in which [n]
    attempts have been made, [5 - n] failed rounds (close, retry timer,
    error) followed by the close of the last socket leave the status at
    Connection failed, after exactly [5 - n] further sockets, each created
    by a timer of 2000ms, and with nothing more scheduled. *)
Theorem retries_run_out (p : NumpadKeyboard) :
  page_inv p → idle p →
  let n := 5 - reconnectAttempts p in
  let q := page_run (failed_rounds n ++ [WsClose]) p in
  status_text q = "Connection failed"%string
  ∧ reconnectAttempts q = 5
  ∧ sockets q = sockets p + n
  ∧ timers q = timers p ++ replicate n 2000
  ∧ fired q = length (timers q)
  ∧ connected q = false.
Proof.
  intros Hinv Hidle. pose proof Hinv as (_ & _ & Hle). simpl.
  rewrite page_run_app.
  destruct (failed_rounds_run (5 - reconnectAttempts p) p Hinv Hidle)
    as ((Hmax & Hdelay & _) & (Hflag & Hconn & Hfired) & Ha & Hs & Ht);
    [lia|].
  cbv zeta in *.
  set (r := page_run (failed_rounds (5 - reconnectAttempts p)) p) in *.
  unfold page_run. simpl. unfold onclose. simpl. rewrite Hflag.
  unfold attemptReconnect. simpl. rewrite Hmax.
  assert (reconnectAttempts r = 5) as Hfive by lia.
  rewrite Hfive. simpl. repeat split; assumption.
Qed.

End page_more.

Lemma retries_run_out_witness :
  status_text
    (@page_run page_parse (failed_rounds 5 ++ [WsClose])
       (@page_run page_parse [WsOpen] (new_NumpadKeyboard true)))
  = "Connection failed"%string.
Proof.
  destruct (@retries_run_out page_parse
              (@page_run page_parse [WsOpen] (new_NumpadKeyboard true)))
    as (Hs & _).
  - repeat split; simpl; lia.
  - repeat split.
  - exact Hs.
Defined.

(** ** The device label *)

(** What [occurs] and the /i flag compute. *)
Lemma append_String a s t :
  (String a s ++ t)%string = String a (s ++ t)%string.
Proof. reflexivity. Qed.

Lemma append_Empty t : (EmptyString ++ t)%string = t.
Proof. reflexivity. Qed.

Lemma prefix_spec word : ∀ s,
  String.prefix word s = true ↔ ∃ post, s = (word ++ post)%string.
Proof.
  induction word as [|a word IH]; intros s.
  - split; [intros _; exists s; reflexivity|intros _].
    destruct s; reflexivity.
  - destruct s as [|b s]; simpl.
    + split; [discriminate|intros [post Hp]; rewrite append_String in Hp;
                           discriminate].
    + destruct (ascii_dec a b) as [->|Hne].
      * rewrite IH. split; intros [post Hp]; exists post;
          rewrite append_String in *; congruence.
      * split; [discriminate|].
        intros [post Hp]. rewrite append_String in Hp. congruence.
Qed.

Lemma occurs_spec word : ∀ s,
  occurs word s = true ↔ ∃ pre post, s = (pre ++ word ++ post)%string.
Proof.
  induction s as [|a s IH].
  - change (occurs word EmptyString)
      with (String.prefix word EmptyString || false).
    rewrite orb_false_r, prefix_spec. split.
    + intros [post Hp]. exists EmptyString, post. exact Hp.
    + intros (pre & post & Hp). destruct pre as [|b pre].
      * exists post. exact Hp.
      * rewrite append_String in Hp. discriminate.
  - change (occurs word (String a s))
      with (String.prefix word (String a s) || occurs word s).
    rewrite orb_true_iff, prefix_spec, IH. split.
    + intros [[post Hp]|(pre & post & Hp)].
      * exists EmptyString, post. exact Hp.
      * exists (String a pre), post. rewrite append_String. congruence.
    + intros (pre & post & Hp). destruct pre as [|b pre].
      * left. exists post. exact Hp.
      * right. exists pre, post. rewrite append_String in Hp. congruence.
Qed.

Lemma ascii_ToLower_app a b :
  ascii_ToLower (a ++ b)%string
  = (ascii_ToLower a ++ ascii_ToLower b)%string.
Proof.
  induction a as [|c a IH]; [reflexivity|].
  rewrite append_String. simpl. rewrite append_String, IH. reflexivity.
Qed.

Lemma ascii_ToLower_split x : ∀ s y,
  ascii_ToLower s = (x ++ y)%string →
  ∃ a b, s = (a ++ b)%string ∧ ascii_ToLower a = x ∧ ascii_ToLower b = y.
Proof.
  induction x as [|c x IH]; intros s y E.
  - exists EmptyString, s. repeat split. exact E.
  - rewrite append_String in E.
    destruct s as [|d s]; [discriminate|]. simpl in E.
    injection E as Hc E. destruct (IH s y E) as (a & b & -> & Ha & Hb).
    exists (String d a), b. rewrite append_String. simpl. rewrite Ha, Hc.
    repeat split. exact Hb.
Qed.

Lemma contains_i_occurs word s :
  contains_i word s
  ↔ occurs (ascii_ToLower word) (ascii_ToLower s) = true.
Proof.
  rewrite occurs_spec. split.
  - intros (pre & mid & post & -> & Hmid).
    exists (ascii_ToLower pre), (ascii_ToLower post).
    rewrite !ascii_ToLower_app, Hmid. reflexivity.
  - intros (pre & post & E).
    apply ascii_ToLower_split in E as (a & r & -> & Ha & Hr).
    apply ascii_ToLower_split in Hr as (mid & b & -> & Hmid & Hb).
    exists a, mid, b. split; [reflexivity|exact Hmid].
Qed.

Ltac case_occurs :=
  repeat match goal with
         | |- context [occurs ?w ?s] => destruct (occurs w s)
         end.

(** X17. The device type of [getDeviceId()] is Mobile exactly when the user
    agent contains one of Mobile, Android, iPhone, iPad, iPod, in any
    letter case; it is Tablet exactly when it contains Tablet and none of
    those; otherwise it is Desktop.  So an iPad is always reported as
    Mobile, the second alternative of the tablet test never decides, and
    the initial value Unknown is never returned. *)
Theorem deviceType_cases (userAgent : string) :
  let mobile :=
    contains_i "Mobile" userAgent ∨ contains_i "Android" userAgent
    ∨ contains_i "iPhone" userAgent ∨ contains_i "iPad" userAgent
    ∨ contains_i "iPod" userAgent in
  (deviceType userAgent = "Mobile"%string ↔ mobile)
  ∧ (deviceType userAgent = "Tablet"%string
     ↔ ¬ mobile ∧ contains_i "Tablet" userAgent)
  ∧ (deviceType userAgent = "Desktop"%string
     ↔ ¬ mobile ∧ ¬ contains_i "Tablet" userAgent)
  ∧ (contains_i "iPad" userAgent → deviceType userAgent = "Mobile"%string).
Proof.
  simpl. rewrite !contains_i_occurs.
  unfold deviceType, matches_i. simpl. case_occurs; simpl;
    repeat split; intros; try discriminate; try reflexivity;
    try tauto; intuition discriminate.
Qed.

Lemma deviceType_cases_witness :
  deviceType ipad_agent = "Mobile"%string
  ∧ deviceType "Mozilla/5.0 (Linux; U; TABLET; rv:1.0)" = "Tablet"%string.
Proof.
  split.
  - apply (deviceType_cases ipad_agent).
    exists "Mozilla/5.0 ("%string, "iPad"%string.
    eexists. split; reflexivity.
  - apply (deviceType_cases "Mozilla/5.0 (Linux; U; TABLET; rv:1.0)").
    split.
    + rewrite !contains_i_occurs. vm_compute. intuition discriminate.
    + exists "Mozilla/5.0 (Linux; U; "%string, "TABLET"%string.
      eexists. split; reflexivity.
Defined.

(** X18. [getBrowserName()] answers with the first of Chrome, Firefox,
    Safari, Edge that the user agent contains, in any letter case: a user
    agent that contains Chrome is Chrome whatever else it contains,
    Firefox is answered exactly without Chrome and with Firefox, Safari
    exactly without Chrome and Firefox and with Safari, Edge exactly
    without those three and with Edge, and Unknown exactly when none of
    the four occurs. *)
Theorem getBrowserName_first_match (userAgent : string) :
  (getBrowserName userAgent = "Chrome"%string
   ↔ contains_i "Chrome" userAgent)
  ∧ (getBrowserName userAgent = "Firefox"%string
     ↔ ¬ contains_i "Chrome" userAgent ∧ contains_i "Firefox" userAgent)
  ∧ (getBrowserName userAgent = "Safari"%string
     ↔ ¬ contains_i "Chrome" userAgent ∧ ¬ contains_i "Firefox" userAgent
       ∧ contains_i "Safari" userAgent)
  ∧ (getBrowserName userAgent = "Edge"%string
     ↔ ¬ contains_i "Chrome" userAgent ∧ ¬ contains_i "Firefox" userAgent
       ∧ ¬ contains_i "Safari" userAgent ∧ contains_i "Edge" userAgent)
  ∧ (getBrowserName userAgent = "Unknown"%string
     ↔ ¬ contains_i "Chrome" userAgent ∧ ¬ contains_i "Firefox" userAgent
       ∧ ¬ contains_i "Safari" userAgent ∧ ¬ contains_i "Edge" userAgent).
Proof.
  rewrite !contains_i_occurs.
  unfold getBrowserName, matches_i. simpl. case_occurs; simpl;
    repeat split; intros; try discriminate; try reflexivity;
    try tauto; intuition discriminate.
Qed.

Lemma getBrowserName_first_match_witness :
  getBrowserName edge_agent = "Chrome"%string
  ∧ getBrowserName "Mozilla/5.0 (X11) Gecko/20100101 FIREFOX/121.0"
    = "Firefox"%string.
Proof.
  split.
  - apply (getBrowserName_first_match edge_agent).
    exists "Mozilla/5.0 (Windows NT 10.0; Win64; x64) AppleWebKit/537.36 (KHTML, like Gecko) "%string,
      "Chrome"%string.
    eexists. split; reflexivity.
  - apply (getBrowserName_first_match
             "Mozilla/5.0 (X11) Gecko/20100101 FIREFOX/121.0").
    split.
    + rewrite contains_i_occurs. vm_compute. discriminate.
    + exists "Mozilla/5.0 (X11) Gecko/20100101 "%string, "FIREFOX"%string.
      eexists. split; reflexivity.
Defined.

Example device_labels :
  getDeviceId ipad_agent = "Mobile (Safari)"%string
  ∧ getDeviceId edge_agent = "Desktop (Chrome)"%string
  ∧ getDeviceId "curl/8.0" = "Desktop (Unknown)"%string.
Proof. vm_compute. repeat split; reflexivity. Qed.

(** ** Admission *)

Section admission.
Context `{JSON}.


(** X20. The register case closes one transport at most: that of the member
    which [getExistingConnection] returned.  Every other record, member or
    not and the new one included, has its transport as it was, so a
    second member that was there stays connected. *)
Theorem register_closes_one_transport (connection : ptr) (seed : nat)
    (s s' : WebSocketServer) :
  register connection seed s = Done s' →
  ∀ x, getExistingConnection seed s ≠ Some x → is_live s' x = is_live s x.
Proof.
  intros E x Hx. unfold register in E.
  apply obind_Done in E as (s1 & H1 & E).
  apply obind_Done in E as (o & Ho & E). apply deref_Done in Ho.
  apply obind_Done in E as (ch & _ & E). injection E as <-. simpl in Ho.
  rewrite (is_live_insert _ _ s1 connection o) by (exact Ho || reflexivity).
  destruct (1 <=? size (connections s)); [|injection H1 as <-; reflexivity].
  destruct (getExistingConnection seed s) as [e|];
    [|injection H1 as <-; reflexivity].
  unfold notify_and_close in H1.
  apply obind_Done in H1 as (oe & _ & H1).
  apply obind_Done in H1 as (r & _ & H1). injection H1 as <-.
  unfold is_live. simpl.
  rewrite lookup_insert_ne; [reflexivity|]. intros ->. apply Hx. reflexivity.
Qed.

End admission.


Lemma register_closes_one_transport_witness :
  ∃ s', register (H:=codec) 1 0 first_registered = Done s'
    ∧ is_live s' 1 = is_live first_registered 1.
Proof.
  eexists. split; [vm_compute; reflexivity|].
  apply (register_closes_one_transport (H:=codec) 1 0 first_registered).
  - vm_compute. reflexivity.
  - vm_compute. discriminate.
Defined.
